(** * react-look: style resolution, interaction pseudo-classes, substring decoration

    A shallow embedding of the source units of react-look:

    - the resolver ([resolveLook], [resolveStyle], [addPseudoElement],
      [createPseudoImage], [resolveClassName], [generateIndexMap],
      [generateTypeMap], [getChildType]) together with the owner fields that
      Look.js gives it ([styles], [processors]),
    - the first resolver, the earlier version of the same unit
      ([FirstResolver]: [resolveLook], [resolveStyle], [generateIndexMap],
      [generateTypeMap], [getChildType]),
    - the browser-state pseudo-class handlers ([active], [hover], [focus]),
    - the substring pseudo-class handler (properties/pseudoClasses/substr.js).

    JavaScript values are modelled by small inductive types; objects whose
    enumeration order matters (style rules, style maps) by insertion-ordered
    association lists; counters and stores by [gmap]; exceptions by an error
    monad that also carries the console. Arrays have no holes.

    Collaborators that are not part of these sources are parameters: the
    expression evaluator and the validator of the resolver, the pattern
    extraction and the regular-expression match of the substring handler,
    the state map, the listener set-up, the cloner and the evaluator of the
    first resolver.
    The State and Listener APIs are modelled from their documented contracts.
    React's [createElement] and [cloneElement], [assign-styles] and the style
    sheet of dynamic-style-sheets are modelled by what the resolver relies on:
    element construction, a shallow merge where later sources win, and a
    holder of the style map to which the processors are applied in order. *)

From Stdlib Require Import ZArith Lia.
From stdpp Require Import base option list strings countable gmap pretty.

Set Warnings "-register-all".

Local Open Scope Z_scope.
Local Open Scope nat_scope.

(** ** Primitive JavaScript values *)

Inductive prim :=
| PUndef
| PNull
| PBool (b : bool)
| PNum (n : Z)
| PStr (s : string).

Global Instance prim_eq_dec : EqDecision prim.
Proof. solve_decision. Defined.

Definition prim_to_sum (p : prim) : unit + unit + bool + Z + string :=
  match p with
  | PUndef => inl (inl (inl (inl ())))
  | PNull => inl (inl (inl (inr ())))
  | PBool b => inl (inl (inr b))
  | PNum n => inl (inr n)
  | PStr s => inr s
  end.

Definition prim_of_sum (x : unit + unit + bool + Z + string) : prim :=
  match x with
  | inl (inl (inl (inl _))) => PUndef
  | inl (inl (inl (inr _))) => PNull
  | inl (inl (inr b)) => PBool b
  | inl (inr n) => PNum n
  | inr s => PStr s
  end.

Global Instance prim_countable : Countable prim.
Proof.
  apply (inj_countable' prim_to_sum prim_of_sum).
  by intros [].
Defined.

(** ToBoolean on primitives: [undefined], [null], [false], [0] and the empty
    string are falsy. *)
Definition truthy (p : prim) : bool :=
  match p with
  | PUndef | PNull => false
  | PBool b => b
  | PNum n => negb (n =? 0)%Z
  | PStr s => negb (bool_decide (s = ""))
  end.

(** [a || b] on values: the left operand when it is truthy, else the right. *)
Definition js_or (a b : prim) : prim := if truthy a then a else b.

(** ToString on primitives. *)
Definition prim_to_string (p : prim) : string :=
  match p with
  | PUndef => "undefined"
  | PNull => "null"
  | PBool true => "true"
  | PBool false => "false"
  | PNum n => pretty n
  | PStr s => s
  end.

(** ** Exceptions and the console *)

Inductive error :=
| TypeError (msg : string)
| ReferenceError (msg : string).

Inductive result (A : Type) :=
| Ok (a : A)
| Throw (e : error).
Global Arguments Ok {A} a.
Global Arguments Throw {A} e.

(** A computation reads and extends the list of [console.warn] lines and
    either returns or throws. *)
Definition M (A : Type) : Type := list string → result A * list string.

Global Instance M_ret : MRet M := λ A a log, (Ok a, log).
Global Instance M_bind : MBind M := λ A B f m log,
  match m log with
  | (Ok a, log') => f a log'
  | (Throw e, log') => (Throw e, log')
  end.
Global Instance M_fmap : FMap M := λ A B f m, a ← m; mret (f a).

Definition throw {A} (e : error) : M A := λ log, (Throw e, log).
Definition console_warn (line : string) : M () := λ log, (Ok (), log ++ [line]).

(** Evaluating an identifier that was never declared. *)
Definition undeclared {A} (name : string) : M A :=
  throw (ReferenceError (name +:+ " is not defined")).

(** ** Strings: the parts of String.prototype the sources use *)

Module JsString.

Fixpoint prefixb (p s : string) : bool :=
  match p, s with
  | "", _ => true
  | String a p', String b s' => bool_decide (a = b) && prefixb p' s'
  | String _ _, "" => false
  end.

(** [split_go sep s skip]: the pieces of [s] after its first [skip]
    characters (the tail of a separator just matched) are dropped. The head
    of the result is the piece under construction. *)
Fixpoint split_go (sep s : string) (skip : nat) : list string :=
  match s with
  | "" => [""]
  | String c s' =>
      match skip with
      | S k => split_go sep s' k
      | O =>
          if prefixb sep s then "" :: split_go sep s' (String.length sep - 1)
          else match split_go sep s' 0 with
               | piece :: pieces => String c piece :: pieces
               | [] => [String c ""]
               end
      end
  end.

Fixpoint chars (s : string) : list string :=
  match s with
  | "" => []
  | String c s' => String c "" :: chars s'
  end.

(** [s.split(sep)] for a string separator and no limit. *)
Definition split (s sep : string) : list string :=
  if bool_decide (sep = "") then chars s else split_go sep s 0.

(** [pieces.join(sep)]. *)
Fixpoint join (sep : string) (pieces : list string) : string :=
  match pieces with
  | [] => ""
  | [piece] => piece
  | piece :: rest => piece +:+ sep +:+ join sep rest
  end.

(** [s.indexOf(needle) > -1]. *)
Fixpoint includes (needle s : string) : bool :=
  prefixb needle s ||
  match s with
  | "" => false
  | String _ s' => includes needle s'
  end.

Fixpoint take (n : nat) (s : string) : string :=
  match n, s with
  | S n', String c s' => String c (take n' s')
  | _, _ => ""
  end.

Fixpoint drop (n : nat) (s : string) : string :=
  match n, s with
  | S n', String _ s' => drop n' s'
  | _, _ => s
  end.

(** [s.substr(0, len)] for an integer [len]; a negative length gives the
    empty string. *)
Definition substr0 (s : string) (len : Z) : string := take (Z.to_nat len) s.

End JsString.

(** ** Objects

    A plain object is an insertion-ordered association list with unique keys:
    assignment to a present key keeps its position, assignment to a new key
    appends, as property enumeration observes. *)

Section objects.
Context {V : Type}.

Fixpoint obj_get (k : string) (o : list (string * V)) : option V :=
  match o with
  | [] => None
  | (k', v) :: o' => if decide (k = k') then Some v else obj_get k o'
  end.

Fixpoint obj_set (k : string) (v : V) (o : list (string * V)) : list (string * V) :=
  match o with
  | [] => [(k, v)]
  | (k', v') :: o' =>
      if decide (k = k') then (k', v) :: o' else (k', v') :: obj_set k v o'
  end.

Fixpoint obj_delete (k : string) (o : list (string * V)) : list (string * V) :=
  match o with
  | [] => []
  | (k', v') :: o' =>
      if decide (k = k') then obj_delete k o' else (k', v') :: obj_delete k o'
  end.

(** Shallow merge into [base], later sources winning on key conflicts: what
    the resolver relies on from the external [assign-styles] /
    [object-assign] helpers. The first argument is updated in place and
    returned. *)
Definition assign (base ext : list (string * V)) : list (string * V) :=
  foldl (λ acc kv, obj_set kv.1 kv.2 acc) base ext.
End objects.

(** ** Elements

    [etype] is the [type] field of an element: a tag name or a component
    function; a function carries its own [name] property when it has one and
    is otherwise identified by its source text when used as a property key. *)

Inductive etype :=
| TTag (tag : string)
| TFun (name : option string) (src : string).

(** A value in a resolved style map: a primitive, or the element synthesised
    for a pseudo-element slot. *)
Inductive sval (N : Type) :=
| SPrim (p : prim)
| SNode (n : N).
Global Arguments SPrim {N} p.
Global Arguments SNode {N} n.

(** A style rule as written by the author: primitives are style properties,
    nested objects are conditions (pseudo-classes, pseudo-elements). *)
Inductive rvalue :=
| RPrim (p : prim)
| RObj (fields : list (string * rvalue)).

(** Any other prop: a plain attribute such as [src], or a function such as
    an event listener, identified by a name. *)
Inductive attr :=
| AVal (p : prim)
| AFun (name : string).

(** The props of an element: the ones the resolver reads or writes by name,
    and the others in [attrs]. [children] is [undefined] when the element has
    none. *)
Record Props (N : Type) := mkProps {
  look : option prim;
  style : option (list (string * sval N));
  className : option rvalue;
  attrs : list (string * attr);
  children : N
}.
Global Arguments mkProps {N} _ _ _ _ _.
Global Arguments look {N} _.
Global Arguments style {N} _.
Global Arguments className {N} _.
Global Arguments attrs {N} _.
Global Arguments children {N} _.

(** Anything that can occur where a child can: a primitive (text, number,
    [null], [undefined], a boolean), an array of children, or an element. *)
Inductive node :=
| Prim (p : prim)
| Arr (items : list node)
| Elem (type : etype) (key ref : prim) (props : Props node).

Abbreviation styles_t := (list (string * sval node)).
Abbreviation props_t := (Props node).

Definition truthy_node (n : node) : bool :=
  match n with
  | Prim p => truthy p
  | Arr _ | Elem _ _ _ _ => true
  end.

Definition is_undefined (n : node) : bool :=
  match n with
  | Prim PUndef => true
  | _ => false
  end.

Definition truthy_sval (v : option (sval node)) : bool :=
  match v with
  | None => false
  | Some (SPrim p) => truthy p
  | Some (SNode n) => truthy_node n
  end.

Definition sval_node (v : sval node) : node :=
  match v with
  | SPrim p => Prim p
  | SNode n => n
  end.

Definition truthy_rvalue (v : option rvalue) : bool :=
  match v with
  | None => false
  | Some (RPrim p) => truthy p
  | Some (RObj _) => true
  end.

Definition rvalue_to_string (v : rvalue) : string :=
  match v with
  | RPrim p => prim_to_string p
  | RObj _ => "[object Object]"
  end.

Definition set_style (s : styles_t) (p : props_t) : props_t :=
  mkProps (look p) (Some s) (className p) (attrs p) (children p).
Definition set_className (c : rvalue) (p : props_t) : props_t :=
  mkProps (look p) (style p) (Some c) (attrs p) (children p).
Definition set_children (c : node) (p : props_t) : props_t :=
  mkProps (look p) (style p) (className p) (attrs p) c.

(** [React.createElement(type, config, children)] with no key or ref in the
    config, and [React.cloneElement(element, props, children)]: the host
    primitives, total and free of side effects. *)
Definition createElement (type : string) (config : props_t) (children : node) : node :=
  Elem (TTag type) PNull PNull (set_children children config).

Definition cloneElement (type : etype) (key ref : prim) (newProps : props_t)
    (newChildren : node) : node :=
  Elem type key ref (set_children newChildren newProps).

Definition emptyProps : props_t := mkProps None None None [] (Prim PUndef).

(** ** Positional metadata *)

Module ChildIndex.
Record t := mk {
  index : nat;
  length : nat;
  typeIndex : option nat;
  typeIndexLength : option nat
}.
End ChildIndex.

(** The owner component as the resolver sees it (the [LookComponent] of
    Look.js): the style table [this.styles] and the optional list
    [this.processors] handed to the style sheet. *)
Record LookComponent := mkComponent {
  styles : list (string * list (string * rvalue));
  processors : option (list (styles_t → styles_t))
}.

(** ** The resolver *)

Module Resolver.

(** What [getChildType] returns: [child.type] for a tag (or when the child
    has no [type]), the function's [name] when it owns one, else the
    function itself. *)
Inductive childType :=
| CTUndefined
| CTString (s : string)
| CTFunction (src : string).

(** ToPropertyKey: how a child type indexes the counter objects. *)
Definition propertyKey (t : childType) : string :=
  match t with
  | CTUndefined => "undefined"
  | CTString s => s
  | CTFunction src => src
  end.

(** Reading [child.type]: a TypeError on [null] and [undefined],
    [undefined] on the other primitives and on arrays. *)
Definition getChildType (child : node) : M childType :=
  match child with
  | Prim PUndef => throw (TypeError "Cannot read properties of undefined (reading 'type')")
  | Prim PNull => throw (TypeError "Cannot read properties of null (reading 'type')")
  | Prim _ | Arr _ => mret CTUndefined
  | Elem (TFun (Some name) _) _ _ _ => mret (CTString name)
  | Elem (TFun None src) _ _ _ => mret (CTFunction src)
  | Elem (TTag tag) _ _ _ => mret (CTString tag)
  end.

Definition generateIndexMap (child : node) (indexMap : gmap string nat)
    : M (gmap string nat) :=
  childType ← getChildType child;
  match indexMap !! propertyKey childType with
  | Some n => mret (<[propertyKey childType := S n]> indexMap)
  | None => mret (<[propertyKey childType := 1]> indexMap)
  end.

Fixpoint generateTypeMap_from (children : list node) (indexMap : gmap string nat)
    : M (gmap string nat) :=
  match children with
  | [] => mret indexMap
  | child :: rest =>
      indexMap ← generateIndexMap child indexMap;
      generateTypeMap_from rest indexMap
  end.

Definition generateTypeMap (children : list node) : M (gmap string nat) :=
  generateTypeMap_from children ∅.

(** The [oldChildren.forEach] callback of [resolveLook], with the recursive
    call [rec] and the result type left open; [resolveLook] instantiates
    [rec] with itself and [keep] with the identity. [index] is the array
    position of the head of [l]. *)
Section forEach.
Context {R : Type} (rec : node → ChildIndex.t → M R) (keep : node → R).
Context (oldChildren : list node) (typeMap : gmap string nat).

Fixpoint forEachChild (l : list node) (index : nat)
    (indexMap : gmap string nat) (newChildren : list R) : M (list R) :=
  match l with
  | [] => mret newChildren
  | child :: rest =>
      if truthy_node child then
        indexMap ← generateIndexMap child indexMap;
        childType ← getChildType child;
        let childIndex :=
          {| ChildIndex.index := index + 1;
             ChildIndex.length := length oldChildren;
             ChildIndex.typeIndex := indexMap !! propertyKey childType;
             ChildIndex.typeIndexLength := typeMap !! propertyKey childType |} in
        r ← rec child childIndex;
        forEachChild rest (S index) indexMap (newChildren ++ [r])
      else if is_undefined child then
        (* the arguments of the first warning name [oldChidren], which is
           declared nowhere; the texts of the warnings are abridged *)
        _ ← undeclared (A := ()) "oldChidren";
        _ ← console_warn "There are children which are either undefined, empty or invalid React Elements";
        _ ← console_warn "Look removed 1 child while validating";
        forEachChild rest (S index) indexMap newChildren
      else
        forEachChild rest (S index) indexMap (newChildren ++ [keep child])
  end.
End forEach.

(** The array branch of the children handling: the type-count pre-pass, then
    the loop. *)
Definition resolveChildren {R} (rec : node → ChildIndex.t → M R) (keep : node → R)
    (oldChildren : list node) : M (list R) :=
  typeMap ← generateTypeMap oldChildren;
  forEachChild rec keep oldChildren typeMap oldChildren 0 ∅ [].

Definition resolveClassName (css : rvalue) (newProps : props_t) : props_t :=
  if truthy_rvalue (className newProps) then
    set_className
      (RPrim (PStr (from_option rvalue_to_string "undefined" (className newProps)
                    +:+ " " +:+ rvalue_to_string css)))
      newProps
  else set_className css newProps.

(** [content.split('url(')[1].substr(0, content.length - 5)] *)
Definition createPseudoImage (content : string) : M node :=
  match JsString.split content "url(" !! 1 with
  | Some piece =>
      mret (createElement "img"
              (mkProps None None None
                 [("src", AVal (PStr (JsString.substr0 piece
                                         (Z.of_nat (String.length content) - 5))))]
                 (Prim PUndef))
              (Prim PUndef))
  | None => throw (TypeError "Cannot read properties of undefined (reading 'substr')")
  end.

Definition addPseudoElement (styles : styles_t) : M node :=
  '(content, styles) ←
    (if truthy_sval (obj_get "content" styles) then
       match obj_get "content" styles with
       | Some (SPrim (PStr s)) => mret (s, obj_delete "content" styles)
       | _ => throw (TypeError "content.indexOf is not a function")
       end
     else mret ("", styles));
  children ←
    (if JsString.includes "url(" content then
       img ← createPseudoImage content; mret (Arr [img])
     else mret (Prim (PStr content)));
  mret (createElement "span" (set_style styles emptyProps) children).

Section resolve.
(** The collaborators that live outside these sources: the expression
    evaluator (it may add listeners to the outgoing props while deciding)
    and the pseudo-element test of the validator. *)
Context (evaluateExpression :
           LookComponent → node → string → props_t → option ChildIndex.t → bool * props_t).
Context (isPseudoElement : string → bool).
Context (Component : LookComponent).

(** [resolveStyle] recurses into the nested rule objects. Every call site
    passes an object, so the [RPrim] branch only makes the function total.
    The [css] entry is deleted from the rule before the iteration, which
    therefore skips it. The source also threads [newChildren] through the
    recursion without ever reading it. *)
Fixpoint resolveStyle (element : node) (styles : rvalue) (newProps : props_t)
    (childIndexMap : option ChildIndex.t) {struct styles} : M (styles_t * props_t) :=
  match styles with
  | RPrim _ => mret ([], newProps)
  | RObj fields =>
      let newProps :=
        match obj_get "css" fields with
        | Some css => resolveClassName css newProps
        | None => newProps
        end in
      (fix each (l : list (string * rvalue)) (newStyle : styles_t) (newProps : props_t)
         : M (styles_t * props_t) :=
         match l with
         | [] => mret (newStyle, newProps)
         | (property, value) :: rest =>
             if decide (property = "css") then each rest newStyle newProps
             else
               match value with
               | RObj sub =>
                   if bool_decide (sub = []) then each rest newStyle newProps
                   else
                     let '(matched, newProps) :=
                       evaluateExpression Component element property newProps childIndexMap in
                     if matched then
                       '(resolved, newProps) ← resolveStyle element value newProps childIndexMap;
                       if isPseudoElement property then
                         pseudo ← addPseudoElement resolved;
                         each rest
                           (obj_set
                              (if JsString.includes "before" property then "before" else "after")
                              (SNode pseudo) newStyle)
                           newProps
                       else each rest (assign newStyle resolved) newProps
                     else each rest newStyle newProps
               | RPrim p => each rest (obj_set property (SPrim p) newStyle) newProps
               end
         end) fields [] newProps
  end.

(** [(props.look === true ? '_default' : props.look).split(' ')] *)
Definition looksOf (look : prim) : M (list string) :=
  match look with
  | PBool true => mret (JsString.split "_default" " ")
  | PStr s => mret (JsString.split s " ")
  | _ => throw (TypeError "props.look.split is not a function")
  end.

(** The [looks.forEach] callback. *)
Fixpoint forEachLook (element : node) (childIndexMap : option ChildIndex.t)
    (looks : list string) (newStyles : styles_t) (newProps : props_t)
    : M (styles_t * props_t) :=
  match looks with
  | [] => mret (newStyles, newProps)
  | look :: rest =>
      match obj_get look (styles Component) with
      | Some rule =>
          '(resolved, newProps) ← resolveStyle element (RObj rule) newProps childIndexMap;
          forEachLook element childIndexMap rest (assign newStyles resolved) newProps
      | None => forEachLook element childIndexMap rest newStyles newProps
      end
  end.

(** [new Sheet(newStyles)], [sheet.process(...Component.processors)] when
    the owner has processors, [sheet.getSelectors()]: the style sheet of
    the external dynamic-style-sheets package holds the map and applies
    the processors to it in order. *)
Definition sheet (newStyles : styles_t) : styles_t :=
  match processors Component with
  | Some ps => foldl (λ selectors process, process selectors) newStyles ps
  | None => newStyles
  end.

(** The block of [resolveLook] that moves a [before] or [after] entry of
    the final styles into the children. *)
Definition pseudoElements (styles : styles_t) (newChildren : node) : styles_t * node :=
  if truthy_sval (obj_get "before" styles) || truthy_sval (obj_get "after" styles) then
    let items := match newChildren with Arr items => items | _ => [newChildren] end in
    if truthy_sval (obj_get "before" styles) then
      (obj_delete "before" styles,
       Arr (from_option sval_node (Prim PUndef) (obj_get "before" styles) :: items))
    else if truthy_sval (obj_get "after" styles) then
      (obj_delete "after" styles,
       Arr (items ++ [from_option sval_node (Prim PUndef) (obj_get "after" styles)]))
    else (styles, Arr items)
  else (styles, newChildren).

Fixpoint resolveLook (element : node) (childIndexMap : option ChildIndex.t)
    {struct element} : M node :=
  match element with
  | Elem type key ref props =>
      let oldChildren := children props in
      newChildren ←
        (if truthy_node oldChildren then
           match oldChildren with
           | Arr items =>
               Arr <$> resolveChildren
                         (λ child childIndex, resolveLook child (Some childIndex)) id items
           | _ => resolveLook oldChildren None
           end
         else mret (Arr []));
      let newProps := props in
      '(newStyles, newProps) ←
        match look props with
        | Some look =>
            looks ← looksOf look;
            forEachLook element childIndexMap looks [] newProps
        | None => mret ([], newProps)
        end;
      let newStyles :=
        match style props with
        | Some explicit => assign newStyles explicit
        | None => newStyles
        end in
      let styles := sheet newStyles in
      let '(styles, newChildren) := pseudoElements styles newChildren in
      mret (cloneElement type key ref (set_style styles newProps) newChildren)
  | Prim _ | Arr _ => mret element
  end.
End resolve.

End Resolver.

(** ** The element identity key

    [element.key || element.ref || 'root'], as the [active], [hover] and
    [focus] handlers and the first resolver compute it. A value that is not an
    element has neither property. *)

Definition defaultKey : prim := PStr "root".

Definition key_of (element : node) : prim :=
  match element with
  | Elem _ key _ _ => key
  | Prim _ | Arr _ => PUndef
  end.

Definition ref_of (element : node) : prim :=
  match element with
  | Elem _ _ ref _ => ref
  | Prim _ | Arr _ => PUndef
  end.

Definition identityKey (element : node) : prim :=
  js_or (js_or (key_of element) (ref_of element)) defaultKey.

(** The reading of the identity key with the nullish operator,
    [node.key ?? node.ref ?? "root"]: only [null] and [undefined] fall
    through. *)
Definition nullish (p : prim) : bool :=
  match p with
  | PUndef | PNull => true
  | _ => false
  end.

Definition nullish_or (a b : prim) : prim := if nullish a then b else a.

Definition nullishIdentityKey (element : node) : prim :=
  nullish_or (key_of element) (nullish_or (ref_of element) defaultKey).

(** ** Browser-state pseudo-classes: [active], [hover], [focus] *)

Module BrowserState.

(** The closures the handlers create, as data: the state setters of
    [hover] and [focus], the mouse-down closure of [active], and the
    owner's mouse-up handler. *)
Inductive listener :=
| SetState (name : string) (value : bool) (key : prim)
| MouseDown (key : prim)
| MouseUp.

Global Instance listener_eq_dec : EqDecision listener.
Proof. solve_decision. Defined.

(** The owner component as the handlers see it. [look_state] backs the
    State API and [registry] the Listener API; [_lastActiveElements] and
    [_onMouseUp] are the two fields [active] adds to the owner. *)
Record Owner := mkOwner {
  look_state : gmap (prim * string) bool;
  registry : gmap (prim * string) listener;
  _lastActiveElements : option (list prim);
  _onMouseUp : option listener
}.

Definition set_look_state (f : gmap (prim * string) bool → gmap (prim * string) bool)
    (C : Owner) : Owner :=
  mkOwner (f (look_state C)) (registry C) (_lastActiveElements C) (_onMouseUp C).
Definition set_registry (r : gmap (prim * string) listener) (C : Owner) : Owner :=
  mkOwner (look_state C) r (_lastActiveElements C) (_onMouseUp C).
Definition set_lastActiveElements (l : option (list prim)) (C : Owner) : Owner :=
  mkOwner (look_state C) (registry C) l (_onMouseUp C).
Definition set_onMouseUp (h : option listener) (C : Owner) : Owner :=
  mkOwner (look_state C) (registry C) (_lastActiveElements C) h.

(** Modelled from the spec: the State API (api/State) is not among the
    sources. [getState(name, owner, key)] is a boolean, false when nothing
    was stored; [setState(name, value, owner, key)] stores it; the store
    belongs to the owner and entries are identified by key and state name. *)
Definition getState (name : string) (C : Owner) (key : prim) : bool :=
  default false (look_state C !! (key, name)).

Definition setState (name : string) (value : bool) (C : Owner) (key : prim) : Owner :=
  set_look_state <[(key, name) := value]> C.

(** Modelled from the spec: the Listener API (api/Listener) is not among the
    sources. [createListener(owner, element, key, eventName, callback)]
    returns a handler reference; at most one handler exists per owner, key
    and event name, and later requests reuse the one created first. *)
Definition createListener (C : Owner) (element : node) (key : prim) (event : string)
    (callback : listener) : listener * Owner :=
  match registry C !! (key, event) with
  | Some handler => (handler, C)
  | None => (callback, set_registry (<[(key, event) := callback]> (registry C)) C)
  end.

(** The body of [Component._onMouseUp]: while the list is not empty, clear
    the state of the key at position 0 and pop the list. [pop] takes no
    argument and removes the last entry. [None] means the fuel ran out. *)
Fixpoint onMouseUp_loop (fuel : nat) (C : Owner) : option (result Owner) :=
  match _lastActiveElements C with
  | None => Some (Throw (TypeError "Cannot read properties of undefined (reading 'length')"))
  | Some [] => Some (Ok C)
  | Some (key :: rest) =>
      match fuel with
      | O => None
      | S fuel' =>
          let C := setState "active" false C key in
          let C := set_lastActiveElements (Some (removelast (key :: rest))) C in
          onMouseUp_loop fuel' C
      end
  end.

Definition onMouseUp (C : Owner) : option (result Owner) :=
  onMouseUp_loop (length (default [] (_lastActiveElements C))) C.

(** Invoking a handler on the owner. *)
Definition invoke (h : listener) (C : Owner) : option (result Owner) :=
  match h with
  | SetState name value key => Some (Ok (setState name value C key))
  | MouseDown key =>
      let C := setState "active" true C key in
      match _lastActiveElements C with
      | Some l => Some (Ok (set_lastActiveElements (Some (l ++ [key])) C))
      | None => Some (Throw (TypeError "Cannot read properties of undefined (reading 'push')"))
      end
  | MouseUp => onMouseUp C
  end.

(** The context bundle of a handler call, together with the global
    [window]: its mouse-up listeners, or [None] where there is no window. *)
Record Context := mkContext {
  element : node;
  Component : Owner;
  newProps : gmap string listener;
  window : option (list listener)
}.

Definition active (property : string) (styles : styles_t) (customKey : prim)
    (ctx : Context) : option styles_t * Context :=
  let key := identityKey (element ctx) in
  let C := Component ctx in
  let C :=
    match _lastActiveElements C with
    | None => set_lastActiveElements (Some []) C
    | Some _ => C
    end in
  let '(handler, C) := createListener C (element ctx) key "onMouseDown" (MouseDown key) in
  let newProps := <["onMouseDown" := handler]> (newProps ctx) in
  let '(C, window) :=
    match _onMouseUp C, window ctx with
    | None, Some listeners => (set_onMouseUp (Some MouseUp) C, Some (listeners ++ [MouseUp]))
    | _, _ => (C, window ctx)
    end in
  (if getState "active" C key then Some styles else None,
   mkContext (element ctx) C newProps window).

Definition hover (property : string) (styles : styles_t) (customKey : prim)
    (ctx : Context) : option styles_t * Context :=
  let key := identityKey (element ctx) in
  let C := Component ctx in
  let '(enter, C) :=
    createListener C (element ctx) key "onMouseEnter" (SetState "hover" true key) in
  let newProps := <["onMouseEnter" := enter]> (newProps ctx) in
  let '(leave, C) :=
    createListener C (element ctx) key "onMouseLeave" (SetState "hover" false key) in
  let newProps := <["onMouseLeave" := leave]> newProps in
  (if getState "hover" C key then Some styles else None,
   mkContext (element ctx) C newProps (window ctx)).

Definition focus (property : string) (styles : styles_t) (customKey : prim)
    (ctx : Context) : option styles_t * Context :=
  let key := identityKey (element ctx) in
  let C := Component ctx in
  let '(onFocus, C) :=
    createListener C (element ctx) key "onFocus" (SetState "focus" true key) in
  let newProps := <["onFocus" := onFocus]> (newProps ctx) in
  let '(onBlur, C) :=
    createListener C (element ctx) key "onBlur" (SetState "focus" false key) in
  let newProps := <["onBlur" := onBlur]> newProps in
  (if getState "focus" C key then Some styles else None,
   mkContext (element ctx) C newProps (window ctx)).

(** The closure each event name stands for. *)
Definition closure_of (key : prim) (event : string) : option listener :=
  if decide (event = "onMouseDown") then Some (MouseDown key)
  else if decide (event = "onMouseEnter") then Some (SetState "hover" true key)
  else if decide (event = "onMouseLeave") then Some (SetState "hover" false key)
  else if decide (event = "onFocus") then Some (SetState "focus" true key)
  else if decide (event = "onBlur") then Some (SetState "focus" false key)
  else None.

(** A registry filled by the three handlers only: every entry is the closure
    of its key and event. *)
Definition registry_wf (C : Owner) : Prop :=
  ∀ key event handler,
    registry C !! (key, event) = Some handler → closure_of key event = Some handler.

Definition emptyOwner : Owner := mkOwner ∅ ∅ None None.

End BrowserState.

(** ** The substring pseudo-class handler *)

Module Substr.

Section substr.
(** [getPseudoExpression] (utils/getPseudoExpression, not among the
    sources) extracts the pattern from the property name, and [matchAll]
    stands for [String.prototype.match] with a global regular expression
    built from it: [None] for [null], else the matched substrings in
    order. *)
Context (getPseudoExpression : string → string).
Context (matchAll : string → string → option (list string)).

(** The [matches.forEach] callback, threading the two variables it
    assigns, [children] and [newChildren]. *)
Fixpoint forEachMatch (styles : styles_t) (matches : list string)
    (children : string) (newChildren : list node) : string * list node :=
  match matches with
  | [] => (children, newChildren)
  | match_ :: rest =>
      let pieces := JsString.split children match_ in
      let left_ :=
        match pieces with
        | piece :: _ => Prim (PStr piece)
        | [] => Prim PUndef
        end in
      let right_ := tail pieces in
      let newChildren := newChildren ++ [left_] in
      let newChildren :=
        newChildren ++
          [createElement "span" (set_style styles emptyProps) (Prim (PStr match_))] in
      forEachMatch styles rest (JsString.join match_ right_) newChildren
  end.

(** The handler returns a style fragment or [false]; [None] is [false]. *)
Definition substr (property : string) (styles : styles_t) (customKey : prim)
    (newProps : props_t) : M (option styles_t * props_t) :=
  match children newProps with
  | Prim (PStr text) =>
      match matchAll (getPseudoExpression property) text with
      | None => mret (None, newProps)
      | Some matches =>
          let '(children, newChildren) := forEachMatch styles matches text [] in
          let newChildren := newChildren ++ [Prim (PStr children)] in
          mret (None, set_children (Arr newChildren) newProps)
      end
  | Prim (PNum _) => throw (TypeError "children.match is not a function")
  | _ => mret (None, newProps)
  end.
End substr.

End Substr.

(** ** Vocabulary of the statements *)

(** The kind of a sibling: the property key under which [getChildType] files
    it. *)
Definition kindOf (child : node) : string :=
  match child with
  | Prim _ | Arr _ => "undefined"
  | Elem (TTag tag) _ _ _ => tag
  | Elem (TFun (Some name) _) _ _ _ => name
  | Elem (TFun None src) _ _ _ => src
  end.

Definition count_kind (kind : string) (siblings : list node) : nat :=
  length (filter (λ sibling, kindOf sibling = kind) siblings).

Definition nullish_node (n : node) : bool :=
  match n with
  | Prim p => nullish p
  | Arr _ | Elem _ _ _ _ => false
  end.

(** The metadata records the children loop hands to the recursive
    resolution, position by position: the loop run with a recursive call that
    returns the record it was given ([None] marks a child that is kept without
    being resolved). *)
Definition positionalMetadata (siblings : list node) : M (list (option ChildIndex.t)) :=
  Resolver.resolveChildren (λ _ childIndex, mret (Some childIndex)) (λ _, None) siblings.

(** The style map of a resolved element. *)
Definition finalStyle (n : node) : styles_t :=
  match n with
  | Elem _ _ _ props => default [] (style props)
  | Prim _ | Arr _ => []
  end.

Definition childrenOf (n : node) : node :=
  match n with
  | Elem _ _ _ props => children props
  | Prim _ | Arr _ => Prim PUndef
  end.

(** One step of the kind counters, and the records of the children loop as a
    pure function of the siblings. *)

Definition bump (kind : string) (m : gmap string nat) : gmap string nat :=
  <[kind := S (default 0 (m !! kind))]> m.

Fixpoint metadataFrom (len : nat) (typeMap : gmap string nat) (l : list node)
    (index : nat) (indexMap : gmap string nat) : list (option ChildIndex.t) :=
  match l with
  | [] => []
  | child :: rest =>
      if truthy_node child then
        let indexMap := bump (kindOf child) indexMap in
        Some {| ChildIndex.index := index + 1;
                ChildIndex.length := len;
                ChildIndex.typeIndex := indexMap !! kindOf child;
                ChildIndex.typeIndexLength := typeMap !! kindOf child |}
          :: metadataFrom len typeMap rest (S index) indexMap
      else None :: metadataFrom len typeMap rest (S index) indexMap
  end.


(** An evaluator under which every condition holds and which leaves the
    outgoing props alone. *)
Definition alwaysMatches
    : LookComponent → node → string → props_t → option ChildIndex.t → bool * props_t :=
  λ _ _ _ newProps _, (true, newProps).

(** Modelled from the spec: the validator's [isPseudoElement] is not among
    the sources; a condition name denotes a pseudo-element by the before/after
    naming convention. *)
Definition isPseudoElement_byName (property : string) : bool :=
  JsString.includes "before" property || JsString.includes "after" property.

(** ** Sample inputs *)

Module Sample.
Definition leaf (tag : string) : node := Elem (TTag tag) PNull PNull emptyProps.

(** Siblings of kinds x, y, x, z. *)
Definition xyxz : list node := [leaf "x"; leaf "y"; leaf "x"; leaf "z"].
Definition xyxzRecords : list (option ChildIndex.t) :=
  [Some (ChildIndex.mk 1 4 (Some 1) (Some 2)); Some (ChildIndex.mk 2 4 (Some 1) (Some 1));
   Some (ChildIndex.mk 3 4 (Some 2) (Some 2)); Some (ChildIndex.mk 4 4 (Some 1) (Some 1))].


Definition itemEmptyItem : list node := [leaf "li"; Prim (PStr ""); leaf "li"].

(** A rule with nested conditions, and an element that also sets the
    property itself. *)
Definition boxRule : list (string * rvalue) :=
  [("color", RPrim (PStr "red"));
   (":hover", RObj [("color", RPrim (PStr "green"));
                    (":active", RObj [("color", RPrim (PStr "black"))])])].
Definition boxOwner : LookComponent := mkComponent [("box", boxRule)] None.
Definition blue : styles_t := [("color", SPrim (PStr "blue"))].
Definition boxProps : props_t := mkProps (Some (PStr "box")) (Some blue) None [] (Prim PUndef).
Definition box : node := Elem (TTag "div") PNull PNull boxProps.


(** A rule with both pseudo-elements, on an element with a text child. *)
Definition quoteOwner : LookComponent :=
  mkComponent
    [("quote", [(":before", RObj [("content", RPrim (PStr "<"))]);
                (":after", RObj [("content", RPrim (PStr ">"))])])]
    None.
Definition quote : node :=
  Elem (TTag "q") PNull PNull
    (mkProps (Some (PStr "quote")) None None [] (Prim (PStr "text"))).
Definition pseudo (content : string) : node :=
  Elem (TTag "span") PNull PNull (mkProps None (Some []) None [] (Prim (PStr content))).

(** A rule whose pseudo-element has the empty [content] usual in CSS. *)
Definition clearOwner : LookComponent :=
  mkComponent [("clear", [(":after", RObj [("content", RPrim (PStr ""))])])] None.
Definition clear : node :=
  Elem (TTag "div") PNull PNull (mkProps (Some (PStr "clear")) None None [] (Prim PUndef)).

(** A list with a missing title: [<ul>{this.props.title}<li/></ul>]. *)
Definition listProps : props_t := mkProps None None None [] (Arr [Prim PUndef; leaf "li"]).
Definition list_ : node := Elem (TTag "ul") PNull PNull listProps.
Definition plainOwner : LookComponent := mkComponent [] None.
End Sample.

Module Pressed.
Import BrowserState.

Definition keyed (key : string) : node := Elem (TTag "button") (PStr key) PNull emptyProps.

(** The owner after its first [active] evaluation in a browser: the list
    exists and the mouse-up handler is installed. *)
Definition armed : Context :=
  (active ":active" [] PUndef (mkContext (keyed "a") emptyOwner ∅ (Some []))).2.

Definition andThen (r : option (result Owner)) (h : listener) : option (result Owner) :=
  match r with
  | Some (Ok C) => invoke h C
  | _ => r
  end.

(** Mouse down on "a", then on "b", with no release in between. *)
Definition bothDown : option (result Owner) :=
  andThen (invoke (MouseDown (PStr "a")) (Component armed)) (MouseDown (PStr "b")).

(** A first [hover] evaluation on a fresh owner, outside a browser. *)
Definition fresh : Context := mkContext (keyed "a") emptyOwner ∅ None.
Definition hovered : option styles_t * Context :=
  hover ":hover" [("color", SPrim (PStr "red"))] PUndef fresh.

Definition bothDownOwner : Owner :=
  mkOwner {[ (PStr "a", "active") := true; (PStr "b", "active") := true ]}
    {[ (PStr "a", "onMouseDown") := MouseDown (PStr "a") ]}
    (Some [PStr "a"; PStr "b"]) (Some MouseUp).
End Pressed.

(** ** Vocabulary of the substring decoration *)


Definition wrapper (styles : styles_t) (match_ : string) : node :=
  createElement "span" (set_style styles emptyProps) (Prim (PStr match_)).




Module Hello.
(** A pattern without metacharacters matches its own text, wherever it
    occurs. *)
Definition literalMatchAll (pattern text : string) : option (list string) :=
  match pred (length (JsString.split text pattern)) with
  | O => None
  | n => Some (replicate n pattern)
  end.

Definition red : styles_t := [("color", SPrim (PStr "red"))].
Definition helloProps : props_t := set_children (Prim (PStr "hello world")) emptyProps.
Definition countProps : props_t := set_children (Prim (PNum 42)) emptyProps.
End Hello.

(** ** Vocabulary of the further properties *)

(** The [_Object.each] callback of [resolveStyle] as a function of its own,
    with the recursive call left open. *)
Section eachEntry.
Context (evaluateExpression :
           LookComponent → node → string → props_t → option ChildIndex.t → bool * props_t).
Context (isPseudoElement : string → bool).
Context (Component : LookComponent) (element : node) (childIndexMap : option ChildIndex.t).
Context (rec : rvalue → props_t → M (styles_t * props_t)).

Fixpoint eachEntry (l : list (string * rvalue)) (newStyle : styles_t) (newProps : props_t)
    : M (styles_t * props_t) :=
  match l with
  | [] => mret (newStyle, newProps)
  | (property, value) :: rest =>
      if decide (property = "css") then eachEntry rest newStyle newProps
      else
        match value with
        | RObj sub =>
            if bool_decide (sub = []) then eachEntry rest newStyle newProps
            else
              let '(matched, newProps) :=
                evaluateExpression Component element property newProps childIndexMap in
              if matched then
                '(resolved, newProps) ← rec value newProps;
                if isPseudoElement property then
                  pseudo ← Resolver.addPseudoElement resolved;
                  eachEntry rest
                    (obj_set
                       (if JsString.includes "before" property then "before" else "after")
                       (SNode pseudo) newStyle)
                    newProps
                else eachEntry rest (assign newStyle resolved) newProps
              else eachEntry rest newStyle newProps
        | RPrim p => eachEntry rest (obj_set property (SPrim p) newStyle) newProps
        end
  end.
End eachEntry.





(** ** The rule object after a resolution *)

Module InPlace.
Section resolve.
Context (evaluateExpression :
           LookComponent → node → string → props_t → option ChildIndex.t → bool * props_t).
Context (isPseudoElement : string → bool).
Context (Component : LookComponent).

(** [resolveStyle] with the rule object it was handed as a third result.
    The function deletes the [css] entry from that object, and each recursive
    call does the same to the nested rule it is handed, which stays in its
    place in the enclosing rule; the caller passes [Component.styles[look]]
    itself, not a copy. [seen] collects the entries as the iteration leaves
    them. The first two results are those of [Resolver.resolveStyle]. *)
Fixpoint resolveStyle (element : node) (styles : rvalue) (newProps : props_t)
    (childIndexMap : option ChildIndex.t) {struct styles}
    : M (styles_t * props_t * rvalue) :=
  match styles with
  | RPrim p => mret ([], newProps, RPrim p)
  | RObj fields =>
      let newProps :=
        match obj_get "css" fields with
        | Some css => Resolver.resolveClassName css newProps
        | None => newProps
        end in
      (fix each (l : list (string * rvalue)) (newStyle : styles_t) (newProps : props_t)
           (seen : list (string * rvalue)) : M (styles_t * props_t * rvalue) :=
         match l with
         | [] => mret (newStyle, newProps, RObj seen)
         | (property, value) :: rest =>
             if decide (property = "css") then each rest newStyle newProps seen
             else
               match value with
               | RObj sub =>
                   if bool_decide (sub = []) then
                     each rest newStyle newProps (seen ++ [(property, value)])
                   else
                     let '(matched, newProps) :=
                       evaluateExpression Component element property newProps childIndexMap in
                     if matched then
                       '(resolved, newProps, value) ←
                         resolveStyle element value newProps childIndexMap;
                       if isPseudoElement property then
                         pseudo ← Resolver.addPseudoElement resolved;
                         each rest
                           (obj_set
                              (if JsString.includes "before" property then "before" else "after")
                              (SNode pseudo) newStyle)
                           newProps (seen ++ [(property, value)])
                       else
                         each rest (assign newStyle resolved) newProps
                           (seen ++ [(property, value)])
                     else each rest newStyle newProps (seen ++ [(property, value)])
               | RPrim p =>
                   each rest (obj_set property (SPrim p) newStyle) newProps
                     (seen ++ [(property, value)])
               end
         end) fields [] newProps []
  end.
End resolve.
End InPlace.

(** The loop of [InPlace.resolveStyle] as a function of its own, with the
    recursive call left open. *)
Section eachInPlace.
Context (evaluateExpression :
           LookComponent → node → string → props_t → option ChildIndex.t → bool * props_t).
Context (isPseudoElement : string → bool).
Context (Component : LookComponent) (element : node) (childIndexMap : option ChildIndex.t).
Context (rec : rvalue → props_t → M (styles_t * props_t * rvalue)).

Fixpoint eachInPlace (l : list (string * rvalue)) (newStyle : styles_t) (newProps : props_t)
    (seen : list (string * rvalue)) : M (styles_t * props_t * rvalue) :=
  match l with
  | [] => mret (newStyle, newProps, RObj seen)
  | (property, value) :: rest =>
      if decide (property = "css") then eachInPlace rest newStyle newProps seen
      else
        match value with
        | RObj sub =>
            if bool_decide (sub = []) then
              eachInPlace rest newStyle newProps (seen ++ [(property, value)])
            else
              let '(matched, newProps) :=
                evaluateExpression Component element property newProps childIndexMap in
              if matched then
                '(resolved, newProps, value) ← rec value newProps;
                if isPseudoElement property then
                  pseudo ← Resolver.addPseudoElement resolved;
                  eachInPlace rest
                    (obj_set
                       (if JsString.includes "before" property then "before" else "after")
                       (SNode pseudo) newStyle)
                    newProps (seen ++ [(property, value)])
                else
                  eachInPlace rest (assign newStyle resolved) newProps
                    (seen ++ [(property, value)])
              else eachInPlace rest newStyle newProps (seen ++ [(property, value)])
        | RPrim p =>
            eachInPlace rest (obj_set property (SPrim p) newStyle) newProps
              (seen ++ [(property, value)])
        end
  end.
End eachInPlace.

(** The results of [InPlace.resolveStyle] that [Resolver.resolveStyle]
    returns. *)
Definition forgetRule (r : result (styles_t * props_t * rvalue) * list string)
    : result (styles_t * props_t) * list string :=
  match r with
  | (Ok (newStyle, newProps, _), log) => (Ok (newStyle, newProps), log)
  | (Throw e, log) => (Throw e, log)
  end.

(** A rule without a [css] entry at any level. *)
Fixpoint css_free (rule : rvalue) : bool :=
  match rule with
  | RPrim _ => true
  | RObj fields =>
      match obj_get "css" fields with
      | Some _ => false
      | None => true
      end && forallb (λ kv, css_free kv.2) fields
  end.

(** ** The first resolver

    The earlier [resolveLook(container, element, selectors, childProps)] with
    its helpers [resolveStyle], [generateIndexMap], [generateTypeMap] and
    [getChildType]; its [resolveClassName] is [Resolver.resolveClassName]
    word for word. The positional record has the fields of [ChildIndex.t].
    The props of an element are mutable here, as the code takes them to be. *)

Module FirstResolver.

(** A selector, [{style, css, condition}], every part optional; the values
    of [condition] are selectors again. *)
Inductive selector :=
| Selector (style : option styles_t) (css : option rvalue)
    (condition : option (list (string * selector))).

(** [child.type == 'function'] compares the type with the string
    "function": it holds for a tag of that name (a string owns no [name], so
    the type itself is returned) and for a function whose source text is that
    string; in every other case the type itself is returned. Used as a
    property key a function is its source text. *)
Definition getChildType (child : node) : M Resolver.childType :=
  match child with
  | Prim PUndef => throw (TypeError "Cannot read properties of undefined (reading 'type')")
  | Prim PNull => throw (TypeError "Cannot read properties of null (reading 'type')")
  | Prim _ | Arr _ => mret Resolver.CTUndefined
  | Elem (TTag tag) _ _ _ => mret (Resolver.CTString tag)
  | Elem (TFun name src) _ _ _ =>
      if decide (src = "function") then
        match name with
        | Some name => mret (Resolver.CTString name)
        | None => mret (Resolver.CTFunction src)
        end
      else mret (Resolver.CTFunction src)
  end.

(** [generateIndexMap(children, indexMap)] counts every child of the list
    into the map it is given. *)
Fixpoint generateIndexMap (children : list node) (indexMap : gmap string nat)
    : M (gmap string nat) :=
  match children with
  | [] => mret indexMap
  | child :: rest =>
      type ← getChildType child;
      generateIndexMap rest
        match indexMap !! Resolver.propertyKey type with
        | Some n => <[Resolver.propertyKey type := S n]> indexMap
        | None => <[Resolver.propertyKey type := 1]> indexMap
        end
  end.

Definition generateTypeMap (children : list node) : M (gmap string nat) :=
  generateIndexMap children ∅.

(** [assign(target, source)] of object-assign: a TypeError on an
    [undefined] target, an [undefined] source is skipped. *)
Definition assign_into (target source : option styles_t) : M (option styles_t) :=
  match target with
  | None => throw (TypeError "Object.assign cannot be called with null or undefined")
  | Some base => mret (Some match source with
                            | Some ext => assign base ext
                            | None => base
                            end)
  end.

Definition delete_look (p : props_t) : props_t :=
  mkProps None (style p) (className p) (attrs p) (children p).
Definition assign_style (s : option styles_t) (p : props_t) : props_t :=
  mkProps (look p) s (className p) (attrs p) (children p).

Section resolve.
(** The collaborators that live outside these sources: the state map
    ([State.has], [State.add]), the listener set-up, the object cloner and
    the expression evaluator, over the container they act on. *)
Context {Container : Type}.
Context (State_has : Container → prim → bool).
Context (State_add : Container → prim → Container).
Context (addRequiredEventListeners : Container → node → prim → props_t → Container * props_t).
Context (cloneObject : selector → selector).
Context (evaluateExpression :
           string → Container → node → prim → option ChildIndex.t → bool).

Fixpoint resolveStyle (styles : selector) (newProps : props_t) (container : Container)
    (element : node) (key : prim) (childProps : option ChildIndex.t) {struct styles}
    : M (option styles_t * props_t) :=
  match styles with
  | Selector style css condition =>
      let newStyle := style in
      let newProps :=
        match css with
        | Some css =>
            if truthy_rvalue (Some css) then Resolver.resolveClassName css newProps
            else newProps
        | None => newProps
        end in
      match condition with
      | Some conditions =>
          (fix each (l : list (string * selector)) (newStyle : option styles_t)
               (newProps : props_t) : M (option styles_t * props_t) :=
             match l with
             | [] => mret (newStyle, newProps)
             | (expr, nested) :: rest =>
                 if evaluateExpression expr container element key childProps then
                   '(resolvedStyle, newProps) ←
                     resolveStyle nested newProps container element key childProps;
                   newStyle ← assign_into newStyle resolvedStyle;
                   each rest newStyle newProps
                 else each rest newStyle newProps
             end) conditions newStyle newProps
      | None => mret (newStyle, newProps)
      end
  end.

(** The [props.children.forEach] callback, with the recursive call [rec]
    left open. [children] is the array under construction, which
    [generateIndexMap] is handed in place of the child; [indexMap] lives
    across the iterations. Reading [child.props.look] fails on anything that
    is no element. [typeMap[type]] is a number, whose [length] is
    [undefined]. *)
Section forEach.
Context (rec : Container → node → ChildIndex.t → M (node * Container)).
Context (oldChildren : list node) (typeMap : gmap string nat).

Fixpoint forEachChild (l : list node) (index : nat) (indexMap : gmap string nat)
    (children : list node) (container : Container) : M (list node * Container) :=
  match l with
  | [] => mret (children, container)
  | child :: rest =>
      indexMap ← generateIndexMap children indexMap;
      match child with
      | Prim PUndef => throw (TypeError "Cannot read properties of undefined (reading 'props')")
      | Prim PNull => throw (TypeError "Cannot read properties of null (reading 'props')")
      | Prim _ | Arr _ =>
          throw (TypeError "Cannot read properties of undefined (reading 'look')")
      | Elem _ _ _ childOwnProps =>
          if truthy (default PUndef (look childOwnProps)) then
            type ← getChildType child;
            typeIndexLength ←
              match typeMap !! Resolver.propertyKey type with
              | Some _ => mret None
              | None =>
                  throw (TypeError "Cannot read properties of undefined (reading 'length')")
              end;
            let childProps :=
              {| ChildIndex.index := index;
                 ChildIndex.length := length oldChildren;
                 ChildIndex.typeIndex := indexMap !! Resolver.propertyKey type;
                 ChildIndex.typeIndexLength := typeIndexLength |} in
            '(resolved, container) ← rec container child childProps;
            forEachChild rest (S index) indexMap (children ++ [resolved]) container
          else forEachChild rest (S index) indexMap (children ++ [child]) container
      end
  end.
End forEach.

Fixpoint resolveLook (container : Container) (element : node)
    (selectors : list (string * selector)) (childProps : option ChildIndex.t)
    {struct element} : M (node * Container) :=
  match element with
  | Elem type key ref props =>
      let onlyChild := children props in
      '(children, container) ←
        match onlyChild with
        | Arr items =>
            typeMap ← generateTypeMap items;
            '(children, container) ←
              forEachChild
                (λ container child childProps,
                   resolveLook container child selectors (Some childProps))
                items typeMap items 0 ∅ [] container;
            mret (Arr children, container)
        | Prim (PNum _) | Prim (PStr _) => mret (onlyChild, container)
        | Prim PUndef =>
            throw (TypeError "Cannot read properties of undefined (reading 'props')")
        | Prim PNull =>
            throw (TypeError "Cannot read properties of null (reading 'props')")
        | Prim (PBool _) =>
            throw (TypeError "Cannot read properties of undefined (reading 'hasOwnProperty')")
        | Elem _ _ _ childOwnProps =>
            if bool_decide (is_Some (look childOwnProps)) then
              resolveLook container onlyChild selectors None
            else mret (onlyChild, container)
        end;
      (* [newProps = ({}, props)] is [props] itself *)
      let newProps := props in
      '(newStyle, newProps, container) ←
        match look props with
        | Some look_ =>
            match obj_get (prim_to_string look_) selectors with
            | Some styles =>
                let key := identityKey element in
                container ←
                  (if State_has container key then
                     _ ← console_warn "You already got a root element. Please use a specific key or ref in order to achieve :hover, :active, :focus to work properly.";
                     mret container
                   else mret (State_add container key));
                let '(container, newProps) :=
                  addRequiredEventListeners container element key newProps in
                '(newStyle, newProps) ←
                  resolveStyle (cloneObject styles) newProps container element key childProps;
                mret (newStyle, delete_look newProps, container)
            | None => mret (Some [], newProps, container)
            end
        | None => mret (Some [], newProps, container)
        end;
      newStyle ←
        match style newProps with
        | Some explicit => assign_into newStyle (Some explicit)
        | None => mret newStyle
        end;
      mret (cloneElement type key ref (assign_style newStyle newProps) children, container)
  | Prim _ | Arr _ => mret (element, container)
  end.
End resolve.
End FirstResolver.

(** A child that is an element, as opposed to text, a number, a boolean,
    [null], [undefined] or a nested array. *)
Definition is_element (child : node) : bool :=
  match child with
  | Elem _ _ _ _ => true
  | Prim _ | Arr _ => false
  end.

(** The kind under which the first resolver files a child: the property
    key of what its [getChildType] returns. *)
Definition firstKindOf (child : node) : string :=
  match child with
  | Prim _ | Arr _ => "undefined"
  | Elem (TTag tag) _ _ _ => tag
  | Elem (TFun name src) _ _ _ =>
      if decide (src = "function") then default src name else src
  end.

Definition count_first_kind (kind : string) (children : list node) : nat :=
  length (filter (λ child, firstKindOf child = kind) children).

(** What the index map holds for [kind] after [calls] calls of the first
    [generateIndexMap], the call number j (from 0) being handed the first j
    children: the sum of the counts over these prefixes. *)
Definition counted_so_far (kind : string) (children : list node) (calls : nat) : nat :=
  sum_list_with (λ j, count_first_kind kind (take j children)) (seq 0 calls).

(** Reading a counter that is absent until it is first incremented. *)
Definition positive_or_undefined (n : nat) : option nat :=
  if decide (n = 0) then None else Some n.

(** ** Further sample inputs *)

Module Cases.
Definition green : list (string * rvalue) := [("color", RPrim (PStr "green"))].
Definition redRule : list (string * rvalue) := [("color", RPrim (PStr "red"))].
Definition arrow : list (string * rvalue) := [("content", RPrim (PStr ">"))].
Definition redWithArrow : styles_t :=
  [("color", SPrim (PStr "red")); ("after", SNode (Sample.pseudo ">"))].


(** A button rule that also names a class of an external style sheet. *)
Definition buttonFields : list (string * rvalue) :=
  [("css", RPrim (PStr "btn")); ("color", RPrim (PStr "red"));
   (":hover", RObj [("css", RPrim (PStr "btn-hover"))])].
Definition buttonRule : rvalue := RObj buttonFields.
Definition buttonRuleAfter : rvalue :=
  RObj [("color", RPrim (PStr "red")); (":hover", RObj [])].
Definition classed : props_t := set_className (RPrim (PStr "btn btn-hover")) emptyProps.

(** Collaborators of the first resolver that keep no state, add no
    listener, return the selector they are to copy and accept every
    condition. *)
Definition noState : () → prim → bool := λ _ _, false.
Definition addState : () → prim → () := λ container _, container.
Definition noListeners : () → node → prim → props_t → () * props_t :=
  λ container _ _ newProps, (container, newProps).
Definition sameSelector : FirstResolver.selector → FirstResolver.selector := id.
Definition alwaysHolds : string → () → node → prim → option ChildIndex.t → bool :=
  λ _ _ _ _ _, true.

(** [<img/>], [<p>text</p>] as an array of one, and an element that sets
    the reserved [before] itself. *)
Definition image : node := Elem (TTag "img") PNull PNull emptyProps.
Definition paragraph : props_t := mkProps None None None [] (Arr [Prim (PStr "text")]).
Definition markSelectors : list (string * FirstResolver.selector) :=
  [("mark", FirstResolver.Selector (Some [("before", SPrim (PStr "x"))]) None None)].
Definition marked : props_t :=
  mkProps (Some (PStr "mark")) (Some [("before", SPrim (PStr "y"))]) None []
    (Prim (PStr "text")).
Definition hoverOnly : list (string * FirstResolver.selector) :=
  [(":hover", FirstResolver.Selector (Some [("color", SPrim (PStr "green"))]) None None)].

(** Four list items, each with a look and a text. *)
Definition item : node :=
  Elem (TTag "li") PNull PNull (mkProps (Some (PStr "item")) None None [] (Prim (PStr "a"))).
Definition fourItems : list node := [item; item; item; item].

(** [<ul>{false}{""}{0}<li/></ul>]. *)
Definition sparse : list node :=
  [Prim (PBool false); Prim (PStr ""); Prim (PNum 0); Sample.leaf "li"].
Definition sparseProps : props_t := mkProps None None None [] (Arr sparse).

(** [look={3}], and a counter that shows 0: [<span>{0}</span>]. *)
Definition numbered : props_t := mkProps (Some (PNum 3)) None None [] (Prim PUndef).
Definition zero : props_t := mkProps None None None [] (Prim (PNum 0)).

(** What a pattern such as [x*] reports on a text without x: the empty
    match at every position. *)
Definition emptyMatches (pattern text : string) : option (list string) :=
  Some (replicate (S (String.length text)) "").
End Cases.

(** * Properties *)

(** ** The monad *)

Lemma bind_Ok {A B} (m : M A) (f : A → M B) log a log1 :
  m log = (Ok a, log1) → (m ≫= f) log = f a log1.
Proof. intros H. unfold mbind, M_bind. by rewrite H. Qed.

Lemma bind_Throw {A B} (m : M A) (f : A → M B) log e log1 :
  m log = (Throw e, log1) → (m ≫= f) log = (Throw e, log1).
Proof. intros H. unfold mbind, M_bind. by rewrite H. Qed.

Lemma bind_Ok_inv {A B} (m : M A) (f : A → M B) log b log' :
  (m ≫= f) log = (Ok b, log') →
  ∃ a log1, m log = (Ok a, log1) ∧ f a log1 = (Ok b, log').
Proof.
  unfold mbind, M_bind. destruct (m log) as [[a|e] log1]; [eauto|discriminate].
Qed.

Lemma fmap_Ok {A B} (g : A → B) (m : M A) log a log1 :
  m log = (Ok a, log1) → (g <$> m) log = (Ok (g a), log1).
Proof. intros H. unfold fmap, M_fmap. by rewrite (bind_Ok _ _ _ _ _ H). Qed.

Lemma fmap_Throw {A B} (g : A → B) (m : M A) log e log1 :
  m log = (Throw e, log1) → (g <$> m) log = (Throw e, log1).
Proof. intros H. unfold fmap, M_fmap. by apply bind_Throw. Qed.

(** ** Objects *)

Section object_facts.
Context {V : Type}.

Lemma obj_get_set (k k' : string) (v : V) (o : list (string * V)) :
  obj_get k (obj_set k' v o) = if decide (k = k') then Some v else obj_get k o.
Proof.
  induction o as [|[k0 v0] o IH]; simpl.
  - by destruct (decide (k = k')).
  - destruct (decide (k' = k0)) as [->|Hne]; simpl.
    + by destruct (decide (k = k0)).
    + rewrite IH. destruct (decide (k = k0)) as [->|]; [|done].
      by rewrite decide_False by congruence.
Qed.

Lemma obj_get_delete (k k' : string) (o : list (string * V)) :
  obj_get k (obj_delete k' o) = if decide (k = k') then None else obj_get k o.
Proof.
  induction o as [|[k0 v0] o IH]; simpl.
  - by destruct (decide (k = k')).
  - destruct (decide (k' = k0)) as [->|Hne]; simpl.
    + rewrite IH. destruct (decide (k = k0)); done.
    + rewrite IH. destruct (decide (k = k0)) as [->|]; [|done].
      by rewrite decide_False by congruence.
Qed.

Lemma obj_get_assign_miss (k : string) (base ext : list (string * V)) :
  k ∉ ext.*1 → obj_get k (assign base ext) = obj_get k base.
Proof.
  unfold assign. revert base.
  induction ext as [|[k0 v0] ext IH]; intros base Hk; simpl; [done|].
  rewrite fmap_cons in Hk. apply not_elem_of_cons in Hk as [Hne Hk]. simpl in Hne.
  rewrite IH by done. rewrite obj_get_set. by rewrite decide_False.
Qed.


(** A merged-in object wins on each of its keys. *)
Lemma obj_get_assign_hit (k : string) (v : V) (base ext : list (string * V)) :
  NoDup ext.*1 → obj_get k ext = Some v → obj_get k (assign base ext) = Some v.
Proof.
  unfold assign. revert base.
  induction ext as [|[k0 v0] ext IH]; intros base Hnd Hk; simpl in *; [done|].
  apply NoDup_cons in Hnd as [Hk0 Hnd].
  case_decide; simplify_eq.
  - fold (assign (obj_set k0 v base) ext).
    rewrite obj_get_assign_miss by done.
    rewrite obj_get_set. by case_decide.
  - by apply IH.
Qed.
End object_facts.

(** ** Sibling bookkeeping *)

Section sibling_facts.
Import Resolver.

Lemma getChildType_Ok child log :
  nullish_node child = false →
  ∃ t, getChildType child log = (Ok t, log) ∧ propertyKey t = kindOf child.
Proof.
  destruct child as [[]| |[|[]]]; simpl; try discriminate; intros _; eauto.
Qed.

Lemma getChildType_Throw child log :
  nullish_node child = true →
  ∃ msg, getChildType child log = (Throw (TypeError msg), log).
Proof.
  destruct child as [[]| |]; simpl; try discriminate; intros _; eauto.
Qed.

Lemma generateIndexMap_Ok child indexMap log :
  nullish_node child = false →
  generateIndexMap child indexMap log = (Ok (bump (kindOf child) indexMap), log).
Proof.
  intros Hc. destruct (getChildType_Ok child log Hc) as (t & Ht & Hk).
  unfold generateIndexMap. rewrite (bind_Ok _ _ _ _ _ Ht), Hk. unfold bump.
  by destruct (indexMap !! kindOf child).
Qed.

Lemma generateIndexMap_Throw child indexMap log :
  nullish_node child = true →
  ∃ msg, generateIndexMap child indexMap log = (Throw (TypeError msg), log).
Proof.
  intros Hc. destruct (getChildType_Throw child log Hc) as (msg & Ht).
  exists msg. unfold generateIndexMap. by rewrite (bind_Throw _ _ _ _ _ Ht).
Qed.

Lemma generateTypeMap_from_Ok l indexMap log :
  Forall (λ child, nullish_node child = false) l →
  generateTypeMap_from l indexMap log
  = (Ok (foldl (λ m child, bump (kindOf child) m) indexMap l), log).
Proof.
  intros Hl. revert indexMap.
  induction Hl as [|child l Hc _ IH]; intros indexMap; simpl; [done|].
  by rewrite (bind_Ok _ _ _ _ _ (generateIndexMap_Ok child indexMap log Hc)).
Qed.

Lemma generateTypeMap_from_Throw l indexMap log :
  Exists (λ child, nullish_node child = true) l →
  ∃ msg, generateTypeMap_from l indexMap log = (Throw (TypeError msg), log).
Proof.
  intros Hl. revert indexMap.
  induction l as [|child l IH]; intros indexMap; [by apply Exists_nil in Hl|].
  simpl. destruct (nullish_node child) eqn:Hc.
  - destruct (generateIndexMap_Throw child indexMap log Hc) as (msg & Hm).
    exists msg. by rewrite (bind_Throw _ _ _ _ _ Hm).
  - rewrite (bind_Ok _ _ _ _ _ (generateIndexMap_Ok child indexMap log Hc)).
    apply IH. apply Exists_cons in Hl as [Hl|Hl]; [congruence|done].
Qed.

Lemma count_kind_cons kind child l :
  count_kind kind (child :: l)
  = (if decide (kindOf child = kind) then 1 else 0) + count_kind kind l.
Proof. unfold count_kind. rewrite filter_cons. by case_decide. Qed.

Lemma bump_lookup kind kind' m :
  default 0 (bump kind m !! kind')
  = (if decide (kind = kind') then 1 else 0) + default 0 (m !! kind').
Proof.
  unfold bump. destruct (decide (kind = kind')) as [->|Hne].
  - by rewrite lookup_insert_eq.
  - by rewrite lookup_insert_ne.
Qed.

Lemma bump_lookup_self kind m :
  bump kind m !! kind = Some (S (default 0 (m !! kind))).
Proof. unfold bump. by rewrite lookup_insert_eq. Qed.

Lemma bumps_count kind l m :
  default 0 (foldl (λ m child, bump (kindOf child) m) m l !! kind)
  = default 0 (m !! kind) + count_kind kind l.
Proof.
  revert m. induction l as [|child l IH]; intros m; simpl.
  - unfold count_kind. simpl. lia.
  - rewrite IH, bump_lookup, count_kind_cons. lia.
Qed.

Lemma bumps_is_Some kind l m :
  is_Some (m !! kind) ∨ (∃ child, child ∈ l ∧ kindOf child = kind) →
  is_Some (foldl (λ m child, bump (kindOf child) m) m l !! kind).
Proof.
  revert m. induction l as [|c l IH]; intros m H; simpl.
  - destruct H as [H|(child & Hin & _)]; [done|by apply elem_of_nil in Hin].
  - apply IH. destruct H as [H|(child & Hin & Hk)].
    + left. unfold bump. destruct (decide (kindOf c = kind)) as [->|Hne].
      * by rewrite lookup_insert_eq.
      * by rewrite lookup_insert_ne.
    + apply elem_of_cons in Hin as [->|Hin].
      * left. rewrite <- Hk. rewrite bump_lookup_self. eauto.
      * right. eauto.
Qed.

Lemma bumps_lookup_member child l m :
  child ∈ l →
  foldl (λ m child, bump (kindOf child) m) m l !! kindOf child
  = Some (default 0 (m !! kindOf child) + count_kind (kindOf child) l).
Proof.
  intros Hin. rewrite <- bumps_count.
  destruct (bumps_is_Some (kindOf child) l m) as [n Hn]; [eauto|].
  by rewrite Hn.
Qed.

(** With a recursive call that returns its record, the loop computes
    [metadataFrom]. *)
Lemma forEachChild_record oldChildren typeMap l index indexMap acc log :
  Forall (λ child, nullish_node child = false) l →
  forEachChild (λ _ childIndex, mret (Some childIndex)) (λ _, None)
    oldChildren typeMap l index indexMap acc log
  = (Ok (acc ++ metadataFrom (length oldChildren) typeMap l index indexMap), log).
Proof.
  intros Hl. revert index indexMap acc.
  induction Hl as [|child l Hc _ IH]; intros index indexMap acc; simpl.
  - by rewrite app_nil_r.
  - destruct (truthy_node child) eqn:Ht.
    + rewrite (bind_Ok _ _ _ _ _ (generateIndexMap_Ok child indexMap log Hc)).
      destruct (getChildType_Ok child log Hc) as (t & Hty & Hk).
      rewrite (bind_Ok _ _ _ _ _ Hty), Hk.
      unfold mbind at 1, M_bind at 1. simpl.
      rewrite IH. by rewrite <- app_assoc.
    + assert (is_undefined child = false) as ->.
      { destruct child as [[]| |]; simpl in *; congruence. }
      rewrite IH. by rewrite <- app_assoc.
Qed.

Lemma positionalMetadata_Ok siblings log :
  Forall (λ child, nullish_node child = false) siblings →
  positionalMetadata siblings log
  = (Ok (metadataFrom (length siblings)
           (foldl (λ m child, bump (kindOf child) m) ∅ siblings) siblings 0 ∅), log).
Proof.
  intros Hl. unfold positionalMetadata, resolveChildren, generateTypeMap.
  rewrite (bind_Ok _ _ _ _ _ (generateTypeMap_from_Ok siblings ∅ log Hl)).
  by rewrite forEachChild_record.
Qed.

Lemma metadataFrom_length len typeMap l index indexMap :
  length (metadataFrom len typeMap l index indexMap) = length l.
Proof.
  revert index indexMap. induction l as [|child l IH]; intros; simpl; [done|].
  destruct (truthy_node child); simpl; by rewrite IH.
Qed.

Lemma metadataFrom_lookup len typeMap l index indexMap i child :
  l !! i = Some child →
  metadataFrom len typeMap l index indexMap !! i
  = Some (if truthy_node child then
            Some {| ChildIndex.index := index + i + 1;
                    ChildIndex.length := len;
                    ChildIndex.typeIndex :=
                      Some (default 0 (indexMap !! kindOf child)
                            + count_kind (kindOf child)
                                (filter (λ c, truthy_node c = true) (take (S i) l)));
                    ChildIndex.typeIndexLength := typeMap !! kindOf child |}
          else None).
Proof.
  revert index indexMap i.
  induction l as [|c l IH]; intros index indexMap i Hi; [done|].
  destruct i as [|i]; simpl in Hi.
  - simplify_eq. simpl. rewrite take_0.
    destruct (truthy_node child) eqn:Ht; simpl; [|done].
    rewrite filter_cons, decide_True by done. rewrite filter_nil.
    rewrite bump_lookup_self, count_kind_cons, decide_True by done.
    unfold count_kind. simpl.
    do 3 f_equal; [lia|f_equal; lia].
  - simpl. destruct (truthy_node c) eqn:Hc; simpl.
    + rewrite (IH _ _ _ Hi). destruct (truthy_node child); [|done].
      rewrite (filter_cons _ c), decide_True by done.
      rewrite bump_lookup, count_kind_cons.
      do 3 f_equal; [lia|]. f_equal.
      destruct (decide (kindOf c = kindOf child)); lia.
    + rewrite (IH _ _ _ Hi). destruct (truthy_node child); [|done].
      rewrite (filter_cons _ c), decide_False by congruence.
      do 3 f_equal; lia.
Qed.
End sibling_facts.

Section sibling_claims.
Import Resolver.

Lemma truthy_not_nullish child : truthy_node child = true → nullish_node child = false.
Proof. by destruct child as [[]| |]. Qed.

Lemma positionalMetadata_Throw siblings log :
  Exists (λ child, nullish_node child = true) siblings →
  ∃ msg, positionalMetadata siblings log = (Throw (TypeError msg), log).
Proof.
  intros Hl. unfold positionalMetadata, resolveChildren, generateTypeMap.
  destruct (generateTypeMap_from_Throw siblings ∅ log Hl) as (msg & Hm).
  exists msg. by rewrite (bind_Throw _ _ _ _ _ Hm).
Qed.

Lemma nullish_dec_siblings (siblings : list node) :
  Forall (λ child, nullish_node child = false) siblings
  ∨ Exists (λ child, nullish_node child = true) siblings.
Proof.
  induction siblings as [|child l [IH|IH]].
  - by left.
  - destruct (nullish_node child) eqn:Hc.
    + right. by apply Exists_cons_hd.
    + left. by constructor.
  - right. by apply Exists_cons_tl.
Qed.

End sibling_claims.




(** C10: the record handed to the recursive resolution of the child at
    0-based position [i] has [index = i + 1] and [length] equal to the number
    of siblings. The first part covers every array and every record the loop
    hands out; the second shows that the loop completes and hands a record to
    every truthy child as soon as no sibling is [null] or [undefined]. *)
Theorem childIndex_index_is_position_plus_one (siblings : list node) (log : list string) :
  (∀ metas log' i childIndex,
     positionalMetadata siblings log = (Ok metas, log') →
     metas !! i = Some (Some childIndex) →
     is_Some (siblings !! i) ∧
     ChildIndex.index childIndex = i + 1 ∧
     ChildIndex.length childIndex = length siblings) ∧
  (Forall (λ sibling, nullish_node sibling = false) siblings →
   ∃ metas,
     positionalMetadata siblings log = (Ok metas, log) ∧
     ∀ i child, siblings !! i = Some child → truthy_node child = true →
       ∃ childIndex, metas !! i = Some (Some childIndex) ∧
         ChildIndex.index childIndex = i + 1 ∧
         ChildIndex.length childIndex = length siblings).
Proof.
  split.
  - intros metas log' i childIndex Hrun Hi.
    destruct (nullish_dec_siblings siblings) as [Hnn|Hex].
    + rewrite positionalMetadata_Ok in Hrun by done. simplify_eq.
      destruct (siblings !! i) as [child|] eqn:Hc.
      * rewrite (metadataFrom_lookup _ _ _ _ _ _ _ Hc) in Hi.
        destruct (truthy_node child); simplify_eq. simpl. eauto.
      * apply lookup_ge_None in Hc. apply lookup_lt_Some in Hi.
        rewrite metadataFrom_length in Hi. lia.
    + destruct (positionalMetadata_Throw siblings log Hex) as (msg & Hm). congruence.
  - intros Hnn. eexists. split; [by apply positionalMetadata_Ok|].
    intros i child Hc Ht.
    rewrite (metadataFrom_lookup _ _ _ _ _ _ _ Hc), Ht. eauto.
Qed.

Lemma childIndex_index_witness :
  ∃ metas,
    positionalMetadata Sample.itemEmptyItem [] = (Ok metas, []) ∧
    ∀ i child, Sample.itemEmptyItem !! i = Some child → truthy_node child = true →
      ∃ childIndex, metas !! i = Some (Some childIndex) ∧
        ChildIndex.index childIndex = i + 1 ∧
        ChildIndex.length childIndex = 3.
Proof.
  apply (proj2 (childIndex_index_is_position_plus_one Sample.itemEmptyItem [])).
  repeat constructor.
Defined.

(** ** Resolution of an element *)

Section resolve_claims.
Import Resolver.
Context (evaluateExpression :
           LookComponent → node → string → props_t → option ChildIndex.t → bool * props_t).
Context (isPseudoElement : string → bool).
Context (Component : LookComponent).

Local Abbreviation resolveLook :=
  (Resolver.resolveLook evaluateExpression isPseudoElement Component).

Lemma resolveChildren_Throw {R} (rec : node → ChildIndex.t → M R) keep items log :
  Exists (λ child, nullish_node child = true) items →
  ∃ msg, resolveChildren rec keep items log = (Throw (TypeError msg), log).
Proof.
  intros Hl. unfold resolveChildren, generateTypeMap.
  destruct (generateTypeMap_from_Throw items ∅ log Hl) as (msg & Hm).
  exists msg. by rewrite (bind_Throw _ _ _ _ _ Hm).
Qed.

Lemma resolveLook_nullish_child type key ref props items childIndexMap log :
  children props = Arr items →
  Exists (λ child, nullish_node child = true) items →
  ∃ msg, resolveLook (Elem type key ref props) childIndexMap log
         = (Throw (TypeError msg), log).
Proof.
  intros Hch Hex. cbn [Resolver.resolveLook]. rewrite Hch. cbn [truthy_node].
  destruct (resolveChildren_Throw
              (λ child childIndex, resolveLook child (Some childIndex)) id items log Hex)
    as (msg & Hm).
  exists msg. apply bind_Throw. by apply fmap_Throw.
Qed.


(** When both slots are filled only [before] is moved: [after] stays in the
    styles and no child is appended. *)
Lemma pseudoElements_both (styles : styles_t) (newChildren : node) before :
  obj_get "before" styles = Some before →
  truthy_sval (Some before) = true →
  pseudoElements styles newChildren
  = (obj_delete "before" styles,
     Arr (sval_node before
          :: match newChildren with Arr items => items | _ => [newChildren] end)).
Proof.
  intros Hb Ht. unfold pseudoElements. rewrite Hb, Ht. done.
Qed.

(** With [after] alone, the entry is deleted and its element appended. *)
Lemma pseudoElements_after_only (styles : styles_t) (newChildren : node) after :
  truthy_sval (obj_get "before" styles) = false →
  obj_get "after" styles = Some after →
  truthy_sval (Some after) = true →
  pseudoElements styles newChildren
  = (obj_delete "after" styles,
     Arr (match newChildren with Arr items => items | _ => [newChildren] end
          ++ [sval_node after])).
Proof.
  intros Hb Ha Ht. unfold pseudoElements. rewrite Hb, Ha, Ht. done.
Qed.


(** C8: an [undefined] entry among the children makes the resolution of the
    parent raise a TypeError from the type-count pre-pass, with nothing
    written to the console; and the branch of the loop meant to drop the
    entry raises a ReferenceError on the misspelt [oldChidren] before either
    warning is written. *)
Theorem undefined_child_aborts_resolution
    type key ref props items childIndexMap log :
  children props = Arr items →
  Prim PUndef ∈ items →
  (∃ msg, resolveLook (Elem type key ref props) childIndexMap log
          = (Throw (TypeError msg), log)) ∧
  (∀ typeMap rest index indexMap newChildren,
     forEachChild (λ child childIndex, resolveLook child (Some childIndex)) id
       items typeMap (Prim PUndef :: rest) index indexMap newChildren log
     = (Throw (ReferenceError "oldChidren is not defined"), log)).
Proof.
  intros Hch Hin. split; [|done].
  apply (resolveLook_nullish_child _ _ _ _ items); [done|].
  apply Exists_exists. by exists (Prim PUndef).
Qed.
End resolve_claims.



Lemma undefined_child_witness :
  (∃ msg, Resolver.resolveLook alwaysMatches isPseudoElement_byName Sample.plainOwner
            Sample.list_ None []
          = (Throw (TypeError msg), [])) ∧
  (∀ typeMap rest index indexMap newChildren,
     Resolver.forEachChild
       (λ child childIndex,
          Resolver.resolveLook alwaysMatches isPseudoElement_byName Sample.plainOwner
            child (Some childIndex))
       id [Prim PUndef; Sample.leaf "li"] typeMap (Prim PUndef :: rest) index indexMap
       newChildren []
     = (Throw (ReferenceError "oldChidren is not defined"), [])).
Proof.
  apply (undefined_child_aborts_resolution
           alwaysMatches isPseudoElement_byName Sample.plainOwner
           (TTag "ul") PNull PNull Sample.listProps [Prim PUndef; Sample.leaf "li"] None []).
  - reflexivity.
  - apply elem_of_cons. by left.
Defined.

(** The falsy children other than [null] and [undefined] are kept as they
    are. *)
Lemma falsy_children_are_kept :
  ∃ resolved,
    Resolver.resolveLook alwaysMatches isPseudoElement_byName Sample.plainOwner
      (Elem (TTag "ul") PNull PNull
         (mkProps None None None []
            (Arr [Prim (PBool false); Prim (PStr ""); Prim (PNum 0); Sample.leaf "li"])))
      None []
    = (Ok resolved, []) ∧
    ∃ item,
      childrenOf resolved = Arr [Prim (PBool false); Prim (PStr ""); Prim (PNum 0); item].
Proof. eexists. split; [by vm_compute|]. eexists. by vm_compute. Qed.

(** C5: with both pseudo-elements resolved, the [before] child is prepended
    to the one-element sequence made of the text child, but the [after] entry
    stays in the final style map and no child is appended for it. *)
Theorem after_is_left_in_the_styles_when_before_is_present :
  Resolver.resolveLook alwaysMatches isPseudoElement_byName Sample.quoteOwner Sample.quote None []
  = (Ok (Elem (TTag "q") PNull PNull
           (mkProps (Some (PStr "quote"))
              (Some [("after", SNode (Sample.pseudo ">"))]) None []
              (Arr [Sample.pseudo "<"; Prim (PStr "text")]))),
     []).
Proof. by vm_compute. Qed.

(** An empty [content], the usual one for a pseudo-element, is not removed
    from the style of the synthesised child. *)
Lemma empty_content_stays_in_the_pseudo_style :
  ∃ resolved,
    Resolver.resolveLook alwaysMatches isPseudoElement_byName Sample.clearOwner Sample.clear None []
      = (Ok resolved, []) ∧
    childrenOf resolved
    = Arr [Elem (TTag "span") PNull PNull
             (mkProps None (Some [("content", SPrim (PStr ""))]) None [] (Prim (PStr "")))].
Proof. eexists. split; by vm_compute. Qed.

(** ** The identity key *)

Lemma truthy_not_nullish_prim (p : prim) : truthy p = true → nullish p = false.
Proof. by destruct p. Qed.

(** C7 (as amended): the identity key is [node.key] if that is truthy,
    otherwise [node.ref] if that is truthy, otherwise "root"; it agrees with
    the nullish reading exactly when the key is truthy, or is [null] or
    [undefined] with a ref that is truthy, [null] or [undefined]. A key that
    is defined but falsy is skipped. *)
Theorem identityKey_takes_first_truthy (element : node) :
  identityKey element
  = (if truthy (key_of element) then key_of element
     else if truthy (ref_of element) then ref_of element
     else PStr "root") ∧
  (identityKey element = nullishIdentityKey element ↔
   truthy (key_of element)
   || nullish (key_of element) && (truthy (ref_of element) || nullish (ref_of element))
   = true).
Proof.
  unfold identityKey, nullishIdentityKey, js_or, nullish_or, defaultKey.
  generalize (key_of element) (ref_of element). intros k r.
  assert (∀ p q : prim, truthy p = true → truthy q = false → p ≠ q) as Hdiff.
  { intros p q Hp Hq ->. congruence. }
  destruct (truthy k) eqn:Hk; simpl.
  - rewrite Hk, (truthy_not_nullish_prim k Hk). done.
  - destruct (truthy r) eqn:Hr; simpl.
    + rewrite (truthy_not_nullish_prim r Hr). split; [done|].
      destruct (nullish k); simpl; [done|].
      split; [|done]. intros Heq. by destruct (Hdiff r k).
    + split; [done|].
      destruct (nullish k); simpl.
      * destruct (nullish r); [done|].
        split; [|done]. intros Heq. by destruct (Hdiff (PStr "root") r).
      * split; [|done]. intros Heq. by destruct (Hdiff (PStr "root") k).
Qed.

(** C7, counterexample: an element whose key is the empty string and whose
    ref is "r" is identified by "r", and an element whose key is 0 and that
    has no ref by "root"; the nullish reading would keep the empty string
    and 0. *)
Lemma falsy_key_is_not_the_identity :
  identityKey (Elem (TTag "div") (PStr "") (PStr "r") emptyProps) = PStr "r" ∧
  nullishIdentityKey (Elem (TTag "div") (PStr "") (PStr "r") emptyProps) = PStr "" ∧
  identityKey (Elem (TTag "div") (PNum 0) PNull emptyProps) = PStr "root" ∧
  nullishIdentityKey (Elem (TTag "div") (PNum 0) PNull emptyProps) = PNum 0.
Proof. done. Qed.

(** ** Browser state *)

Section browser_state.
Import BrowserState.

Lemma getState_setState name value C key name' key' :
  getState name' (setState name value C key) key'
  = if decide ((key, name) = (key', name')) then value else getState name' C key'.
Proof.
  unfold getState, setState, set_look_state. simpl.
  destruct (decide ((key, name) = (key', name'))) as [->|Hne].
  - by rewrite lookup_insert_eq.
  - by rewrite lookup_insert_ne.
Qed.

Lemma setState_twice name value C key l l' :
  set_lastActiveElements l' (setState name value (set_lastActiveElements l (setState name value C key)) key)
  = set_lastActiveElements l' (setState name value C key).
Proof.
  unfold set_lastActiveElements, setState, set_look_state. simpl.
  by rewrite insert_insert_eq.
Qed.

Lemma length_removelast_cons {A} (x : A) (l : list A) :
  length (removelast (x :: l)) = length l.
Proof.
  revert x. induction l as [|y l IH]; intros x; [done|].
  change (removelast (x :: y :: l)) with (x :: removelast (y :: l)).
  cbn [length]. by rewrite IH.
Qed.

(** The mouse-up handler finishes within [length] iterations; all of them
    clear the key at position 0. *)
Lemma onMouseUp_loop_first fuel C first rest :
  _lastActiveElements C = Some (first :: rest) →
  length rest < fuel →
  onMouseUp_loop fuel C
  = Some (Ok (set_lastActiveElements (Some []) (setState "active" false C first))).
Proof.
  revert C rest. induction fuel as [|fuel IH]; intros C rest Hl Hf; [lia|].
  simpl. rewrite Hl.
  destruct rest as [|second rest].
  - destruct fuel; done.
  - change (removelast (first :: second :: rest))
      with (first :: removelast (second :: rest)).
    rewrite (IH _ (removelast (second :: rest))).
    + by rewrite setState_twice.
    + done.
    + rewrite length_removelast_cons. simpl in Hf. lia.
Qed.

(** C3: the release handler empties the active list, but the only state it
    clears is that of the key recorded first; every other recorded key keeps
    its stored ["active"] state. *)
Theorem release_clears_only_the_first_key (C : Owner) (first : prim) (rest : list prim) :
  _lastActiveElements C = Some (first :: rest) →
  ∃ C',
    invoke MouseUp C = Some (Ok C') ∧
    _lastActiveElements C' = Some [] ∧
    getState "active" C' first = false ∧
    ∀ key, key ≠ first → getState "active" C' key = getState "active" C key.
Proof.
  intros Hl. eexists. split.
  - cbn [invoke]. unfold onMouseUp. rewrite Hl.
    apply (onMouseUp_loop_first _ _ first rest); [done|]. simpl. lia.
  - split; [done|]. split.
    + unfold getState. simpl. by rewrite lookup_insert_eq.
    + intros key Hne. unfold getState. simpl.
      by rewrite lookup_insert_ne by congruence.
Qed.

Lemma createListener_wf C element key event callback :
  registry_wf C →
  closure_of key event = Some callback →
  ∃ C', createListener C element key event callback = (callback, C') ∧
        registry_wf C' ∧ look_state C' = look_state C.
Proof.
  intros Hwf Hcl. unfold createListener.
  destruct (registry C !! (key, event)) as [handler|] eqn:Hreg.
  - exists C. apply Hwf in Hreg. split; [|done].
    rewrite Hcl in Hreg. by simplify_eq.
  - eexists. split; [done|]. split; [|done].
    intros key' event' handler'. simpl.
    destruct (decide ((key, event) = (key', event'))) as [Heq|Hne].
    + injection Heq as <- <-. rewrite lookup_insert_eq. by intros [= <-].
    + rewrite lookup_insert_ne by done. apply Hwf.
Qed.

Lemma emptyOwner_wf : registry_wf emptyOwner.
Proof. intros key event handler H. simpl in H. by rewrite lookup_empty in H. Qed.

(** The three handlers keep the registry well formed. *)
Lemma handlers_keep_registry_wf property styles customKey ctx :
  registry_wf (Component ctx) →
  registry_wf (Component (active property styles customKey ctx).2) ∧
  registry_wf (Component (hover property styles customKey ctx).2) ∧
  registry_wf (Component (focus property styles customKey ctx).2).
Proof.
  intros Hwf. unfold active, hover, focus.
  set (key := identityKey (element ctx)).
  split; [|split].
  - set (C0 := match _lastActiveElements (Component ctx) with
               | None => set_lastActiveElements (Some []) (Component ctx)
               | Some _ => Component ctx
               end).
    assert (registry_wf C0) as Hwf0.
    { subst C0. by destruct (_lastActiveElements (Component ctx)). }
    destruct (createListener_wf C0 (element ctx) key "onMouseDown"
                (MouseDown key) Hwf0 eq_refl) as (C1 & -> & Hwf1 & _).
    by destruct (_onMouseUp C1), (window ctx).
  - destruct (createListener_wf (Component ctx) (element ctx) key "onMouseEnter"
                (SetState "hover" true key) Hwf eq_refl) as (C1 & -> & Hwf1 & _).
    by destruct (createListener_wf C1 (element ctx) key "onMouseLeave"
                   (SetState "hover" false key) Hwf1 eq_refl) as (C2 & -> & Hwf2 & _).
  - destruct (createListener_wf (Component ctx) (element ctx) key "onFocus"
                (SetState "focus" true key) Hwf eq_refl) as (C1 & -> & Hwf1 & _).
    by destruct (createListener_wf C1 (element ctx) key "onBlur"
                   (SetState "focus" false key) Hwf1 eq_refl) as (C2 & -> & Hwf2 & _).
Qed.

(** C6: every evaluation of [hover] puts the enter and leave listeners of
    the element's identity key into the outgoing props, whatever the stored
    state; the listeners set and clear the stored ["hover"] state of that
    key; and the handler returns the style fragment exactly when the stored
    state is true. The owner's registry is one that the handlers themselves
    filled, and stays so. *)
Theorem hover_registers_listeners_and_reads_state
    (property : string) (styles : styles_t) (customKey : prim) (ctx : Context) :
  registry_wf (Component ctx) →
  let key := identityKey (element ctx) in
  let out := hover property styles customKey ctx in
  newProps out.2 !! "onMouseEnter" = Some (SetState "hover" true key) ∧
  newProps out.2 !! "onMouseLeave" = Some (SetState "hover" false key) ∧
  (∀ C, ∃ C', invoke (SetState "hover" true key) C = Some (Ok C') ∧
              getState "hover" C' key = true) ∧
  (∀ C, ∃ C', invoke (SetState "hover" false key) C = Some (Ok C') ∧
              getState "hover" C' key = false) ∧
  (out.1 = Some styles ↔ getState "hover" (Component ctx) key = true) ∧
  (out.1 = None ↔ getState "hover" (Component ctx) key = false) ∧
  registry_wf (Component out.2).
Proof.
  intros Hwf key out. subst out. unfold hover. fold key.
  destruct (createListener_wf (Component ctx) (element ctx) key "onMouseEnter"
              (SetState "hover" true key) Hwf eq_refl) as (C1 & -> & Hwf1 & Hst1).
  destruct (createListener_wf C1 (element ctx) key "onMouseLeave"
              (SetState "hover" false key) Hwf1 eq_refl) as (C2 & -> & Hwf2 & Hst2).
  cbn [fst snd newProps Component].
  assert (getState "hover" C2 key = getState "hover" (Component ctx) key) as ->.
  { unfold getState. by rewrite Hst2, Hst1. }
  split; [by rewrite lookup_insert_ne, lookup_insert_eq|].
  split; [by rewrite lookup_insert_eq|].
  split.
  { intros C. eexists. split; [done|]. rewrite getState_setState. by rewrite decide_True. }
  split.
  { intros C. eexists. split; [done|]. rewrite getState_setState. by rewrite decide_True. }
  destruct (getState "hover" (Component ctx) key); naive_solver.
Qed.
End browser_state.

Lemma release_clears_only_the_first_key_witness :
  Pressed.bothDown = Some (Ok Pressed.bothDownOwner) ∧
  ∃ C',
    BrowserState.invoke BrowserState.MouseUp Pressed.bothDownOwner = Some (Ok C') ∧
    BrowserState._lastActiveElements C' = Some [] ∧
    BrowserState.getState "active" C' (PStr "a") = false ∧
    ∀ key, key ≠ PStr "a" →
      BrowserState.getState "active" C' key
      = BrowserState.getState "active" Pressed.bothDownOwner key.
Proof.
  split; [by vm_compute|].
  apply (release_clears_only_the_first_key Pressed.bothDownOwner (PStr "a") [PStr "b"]).
  reflexivity.
Defined.

(** After mouse down on "a" and on "b", the release leaves "b" active. *)
Lemma release_leaves_second_key_active :
  ∃ C',
    BrowserState.invoke BrowserState.MouseUp Pressed.bothDownOwner = Some (Ok C') ∧
    BrowserState.getState "active" C' (PStr "a") = false ∧
    BrowserState.getState "active" C' (PStr "b") = true ∧
    BrowserState._lastActiveElements C' = Some [].
Proof. eexists. split; [by vm_compute|]. by vm_compute. Qed.

Lemma hover_registers_listeners_witness :
  BrowserState.newProps Pressed.hovered.2 !! "onMouseEnter"
    = Some (BrowserState.SetState "hover" true (PStr "a")) ∧
  BrowserState.newProps Pressed.hovered.2 !! "onMouseLeave"
    = Some (BrowserState.SetState "hover" false (PStr "a")) ∧
  (∀ C, ∃ C', BrowserState.invoke (BrowserState.SetState "hover" true (PStr "a")) C
              = Some (Ok C') ∧
              BrowserState.getState "hover" C' (PStr "a") = true) ∧
  (∀ C, ∃ C', BrowserState.invoke (BrowserState.SetState "hover" false (PStr "a")) C
              = Some (Ok C') ∧
              BrowserState.getState "hover" C' (PStr "a") = false) ∧
  (Pressed.hovered.1 = Some Hello.red
   ↔ BrowserState.getState "hover" BrowserState.emptyOwner (PStr "a") = true) ∧
  (Pressed.hovered.1 = None
   ↔ BrowserState.getState "hover" BrowserState.emptyOwner (PStr "a") = false) ∧
  BrowserState.registry_wf (BrowserState.Component Pressed.hovered.2).
Proof.
  apply (hover_registers_listeners_and_reads_state ":hover" Hello.red PUndef Pressed.fresh).
  intros key event handler H. vm_compute in H. discriminate.
Defined.

(** ** Strings *)

Section string_facts.
Import JsString.

Lemma sapp_cons c (s t : string) : String c s +:+ t = String c (s +:+ t).
Proof. done. Qed.

Lemma sapp_nil_l (s : string) : "" +:+ s = s.
Proof. done. Qed.

Lemma sapp_assoc (a b c : string) : (a +:+ b) +:+ c = a +:+ b +:+ c.
Proof. induction a as [|x a IH]; [done|]. by rewrite !sapp_cons, IH. Qed.

Lemma slength_app (a b : string) :
  String.length (a +:+ b) = String.length a + String.length b.
Proof. induction a as [|x a IH]; [done|]. rewrite sapp_cons. simpl. by rewrite IH. Qed.

Lemma prefixb_true (p s : string) : prefixb p s = true ↔ ∃ r, s = p +:+ r.
Proof.
  revert s. induction p as [|a p IH]; intros s; simpl.
  - split; [intros _; by exists s|done].
  - destruct s as [|b s]; [split; [done|by intros [r ?]]|].
    rewrite andb_true_iff, bool_decide_eq_true, IH. split.
    + intros [-> [r ->]]. by exists r.
    + intros [r Hr]. rewrite sapp_cons in Hr. simplify_eq. eauto.
Qed.

Lemma drop_app (p r : string) : drop (String.length p) (p +:+ r) = r.
Proof. induction p as [|a p IH]; [by destruct r|]. by rewrite sapp_cons. Qed.

Lemma split_go_skip (sep s : string) (k : nat) :
  k ≤ String.length s → split_go sep s k = split_go sep (drop k s) 0.
Proof.
  revert k. induction s as [|c s IH]; intros k Hk; simpl in Hk.
  - by replace k with 0 by lia.
  - destruct k as [|k]; [done|]. simpl. apply IH. lia.
Qed.

Lemma split_go_cons (sep : string) c (s : string) :
  split_go sep (String c s) 0
  = if prefixb sep (String c s) then "" :: split_go sep s (String.length sep - 1)
    else match split_go sep s 0 with
         | piece :: pieces => String c piece :: pieces
         | [] => [String c ""]
         end.
Proof. done. Qed.

(** Two ways of cutting one string: the shorter first part is a prefix of
    the longer. *)
Lemma sapp_cut (a b c d : string) :
  a +:+ b = c +:+ d → String.length a ≤ String.length c →
  ∃ x, c = a +:+ x ∧ b = x +:+ d.
Proof.
  revert c. induction a as [|x a IH]; intros c Heq Hlen.
  - exists c. by rewrite !sapp_nil_l in *.
  - destruct c as [|y c]; [simpl in Hlen; lia|].
    rewrite !sapp_cons in Heq. simplify_eq.
    destruct (IH c) as (z & -> & ->); [done|simpl in Hlen; lia|].
    by exists z.
Qed.

Lemma no_occurrence_in_empty (sep l r : string) : sep ≠ "" → "" ≠ l +:+ sep +:+ r.
Proof.
  intros Hsep Heq. apply (f_equal String.length) in Heq.
  rewrite !slength_app in Heq. destruct sep; [done|]. simpl in Heq. lia.
Qed.

(** [split_go] cuts at the first occurrence of the separator. *)
Lemma split_go_first (sep s : string) :
  sep ≠ "" →
  (split_go sep s 0 = [s] ∧ ∀ l r, s ≠ l +:+ sep +:+ r)
  ∨ (∃ left_ rest,
       s = left_ +:+ sep +:+ rest ∧
       split_go sep s 0 = left_ :: split_go sep rest 0 ∧
       ∀ l r, s = l +:+ sep +:+ r → ∃ x, rest = x +:+ r).
Proof.
  intros Hsep. induction s as [|c s IH].
  - left. split; [done|]. intros l r. by apply no_occurrence_in_empty.
  - rewrite split_go_cons. destruct (prefixb sep (String c s)) eqn:Hp.
    + right. apply prefixb_true in Hp as [rest Hrest].
      exists "", rest. split; [done|]. split.
      * f_equal. destruct sep as [|c0 sep']; [done|].
        rewrite sapp_cons in Hrest. simplify_eq. simpl.
        rewrite Nat.sub_0_r, split_go_skip by (rewrite slength_app; lia).
        by rewrite drop_app.
      * intros l r Heq. rewrite Hrest, <- sapp_assoc in Heq.
        destruct (sapp_cut sep rest (l +:+ sep) r) as (x & _ & Hx);
          [done|rewrite slength_app; lia|].
        by exists x.
    + assert (∀ r, String c s ≠ sep +:+ r) as Hnp.
      { intros r Hr. assert (prefixb sep (String c s) = true); [|congruence].
        apply prefixb_true. by exists r. }
      destruct IH as [[Hsplit Hnone]|(left_ & rest & Hs & Hsplit & Hmin)].
      * left. rewrite Hsplit. split; [done|].
        intros [|c' l] r Heq; [by apply (Hnp r)|].
        rewrite sapp_cons in Heq. simplify_eq. by apply (Hnone l r).
      * right. exists (String c left_), rest. rewrite Hsplit.
        split; [by rewrite sapp_cons, <- Hs|]. split; [done|].
        intros [|c' l] r Heq; [by destruct (Hnp r)|].
        rewrite sapp_cons in Heq. simplify_eq. by apply (Hmin l r).
Qed.

Lemma split_go_not_nil (sep s : string) (k : nat) : split_go sep s k ≠ [].
Proof.
  revert k. induction s as [|c s IH]; intros k; simpl; [done|].
  destruct k; [|apply IH].
  destruct (prefixb sep (String c s)); [done|].
  by destruct (split_go sep s 0).
Qed.

Lemma join_cons (sep piece : string) (pieces : list string) :
  pieces ≠ [] → join sep (piece :: pieces) = piece +:+ sep +:+ join sep pieces.
Proof. by destruct pieces. Qed.



End string_facts.

(** ** Substring decoration *)

Section substr_claims.
Import Substr.
Context (getPseudoExpression : string → string).
Context (matchAll : string → string → option (list string)).



(** C9: on a numeric child the handler passes its type test and then calls
    [match] on the number, which raises a TypeError. *)
Theorem substr_throws_on_a_number
    (property : string) (styles : styles_t) (customKey : prim) (newProps : props_t)
    (n : Z) (log : list string) :
  children newProps = Prim (PNum n) →
  substr getPseudoExpression matchAll property styles customKey newProps log
  = (Throw (TypeError "children.match is not a function"), log).
Proof. intros Hch. unfold substr. by rewrite Hch. Qed.
End substr_claims.

(** The example of the claim: "hello world" and the pattern "o". *)
Lemma substr_hello_world :
  Substr.substr id Hello.literalMatchAll "o" Hello.red PUndef Hello.helloProps []
  = (Ok (None,
         set_children
           (Arr [Prim (PStr "hell"); wrapper Hello.red "o"; Prim (PStr " w");
                 wrapper Hello.red "o"; Prim (PStr "rld")])
           Hello.helloProps),
     []).
Proof. by vm_compute. Qed.


Lemma substr_throws_on_a_number_witness :
  Substr.substr id Hello.literalMatchAll "o" Hello.red PUndef Hello.countProps []
  = (Throw (TypeError "children.match is not a function"), []).
Proof.
  apply (substr_throws_on_a_number id Hello.literalMatchAll
           "o" Hello.red PUndef Hello.countProps 42 []).
  reflexivity.
Defined.

(** * Further properties *)

Set Warnings "-clear-no-such-hyp".

Lemma mret_Ok_inv {A} (a b : A) (log log' : list string) :
  (mret a : M A) log = (Ok b, log') → a = b ∧ log = log'.
Proof. unfold mret, M_ret. by intros [= -> ->]. Qed.

(** ** Style rules *)

Section rule_facts.
Import Resolver.
Context (evaluateExpression :
           LookComponent → node → string → props_t → option ChildIndex.t → bool * props_t).
Context (isPseudoElement : string → bool).
Context (Component : LookComponent).

Local Abbreviation resolveStyle :=
  (Resolver.resolveStyle evaluateExpression isPseudoElement Component).
Local Abbreviation each :=
  (eachEntry evaluateExpression isPseudoElement Component).

(** [resolveStyle] on an object is its loop run on the fields, after the
    [css] entry went to the class name. *)
Lemma resolveStyle_RObj element fields newProps childIndexMap log :
  resolveStyle element (RObj fields) newProps childIndexMap log
  = each element childIndexMap
      (λ value newProps, resolveStyle element value newProps childIndexMap)
      fields []
      match obj_get "css" fields with
      | Some css => resolveClassName css newProps
      | None => newProps
      end log.
Proof.
  cbn [Resolver.resolveStyle].
  generalize (match obj_get "css" fields with
              | Some css => resolveClassName css newProps
              | None => newProps
              end).
  generalize (@nil (string * sval node)).
  clear newProps. revert log.
  induction fields as [|[property value] rest IH]; intros log newStyle newProps; [done|].
  cbn [eachEntry].
  destruct (decide (property = "css")); [apply IH|].
  destruct value as [p|sub]; [apply IH|].
  destruct (bool_decide (sub = [])); [apply IH|].
  destruct (evaluateExpression Component element property newProps childIndexMap)
    as [[] newProps1]; [|apply IH].
  unfold mbind, M_bind.
  destruct (Resolver.resolveStyle _ _ _ _ _ _ _ log) as [[[resolved newProps2]|e] log1];
    [|done].
  destruct (isPseudoElement property); [|apply IH].
  destruct (addPseudoElement resolved log1) as [[pseudo|e] log2]; [apply IH|done].
Qed.





(** The loop handles the entries from left to right. *)
Lemma eachEntry_app element childIndexMap rec l1 l2 newStyle newProps log :
  each element childIndexMap rec (l1 ++ l2) newStyle newProps log
  = match each element childIndexMap rec l1 newStyle newProps log with
    | (Ok (newStyle1, newProps1), log1) =>
        each element childIndexMap rec l2 newStyle1 newProps1 log1
    | (Throw e, log1) => (Throw e, log1)
    end.
Proof.
  revert newStyle newProps log.
  induction l1 as [|[property value] rest IH]; intros newStyle newProps log; [done|].
  rewrite <- app_comm_cons. cbn [eachEntry].
  destruct (decide (property = "css")); [apply IH|].
  destruct value as [p|sub]; [apply IH|].
  destruct (bool_decide (sub = [])); [apply IH|].
  destruct (evaluateExpression Component element property newProps childIndexMap)
    as [[] newProps1]; [|apply IH].
  unfold mbind, M_bind.
  destruct (rec (RObj sub) newProps1 log) as [[[resolved newProps2]|e] log1]; [|done].
  destruct (isPseudoElement property); [|apply IH].
  destruct (addPseudoElement resolved log1) as [[pseudo|e] log2]; [apply IH|done].
Qed.





Lemma obj_get_app_css {V} (fields : list (string * V)) (k : string) (v : V) :
  k ≠ "css" → obj_get "css" (fields ++ [(k, v)]) = obj_get "css" fields.
Proof.
  intros Hk. induction fields as [|[k0 v0] fields IH]; simpl.
  - by rewrite decide_False.
  - by rewrite IH.
Qed.

(** X1: Within a rule the entries are applied in the order listed, and a plain
    property that is the last entry of the rule is the value of the resolved
    map, whatever conditions stand before it. *)
Theorem resolveStyle_plain_property_written_last_wins
    element fields (property : string) (value : prim) newProps childIndexMap log
    st props' log' :
  property ≠ "css" →
  resolveStyle element (RObj (fields ++ [(property, RPrim value)])) newProps childIndexMap log
  = (Ok (st, props'), log') →
  obj_get property st = Some (SPrim value).
Proof.
  intros Hcss. rewrite resolveStyle_RObj, eachEntry_app.
  destruct (each _ _ _ fields _ _ log) as [[[st0 props0]|e] log0]; [|done].
  cbn [eachEntry]. rewrite decide_False by done.
  intros [[= <- <-] _]%mret_Ok_inv. rewrite obj_get_set. by rewrite decide_True.
Qed.


(** X3: A pseudo-element condition written last that holds fills one slot with
    the element synthesised from its nested rule, [before] when its name
    contains "before" and [after] otherwise, and leaves every other entry of the
    map as the entries before it made it. *)
Theorem resolveStyle_pseudo_element_fills_a_slot
    element fields (condition : string) sub newProps childIndexMap log st props' log' :
  condition ≠ "css" →
  sub ≠ [] →
  isPseudoElement condition = true →
  (∀ props, (evaluateExpression Component element condition props childIndexMap).1 = true) →
  resolveStyle element (RObj (fields ++ [(condition, RObj sub)])) newProps childIndexMap log
  = (Ok (st, props'), log') →
  let slot := if JsString.includes "before" condition then "before" else "after" in
  ∃ st0 props0 log0 nested props1 log1 pseudo,
    resolveStyle element (RObj fields) newProps childIndexMap log = (Ok (st0, props0), log0) ∧
    resolveStyle element (RObj sub) props1 childIndexMap log0 = (Ok (nested, props'), log1) ∧
    addPseudoElement nested log1 = (Ok pseudo, log') ∧
    obj_get slot st = Some (SNode pseudo) ∧
    ∀ property, property ≠ slot → obj_get property st = obj_get property st0.
Proof.
  intros Hcss Hsub Hpe Hev. rewrite !resolveStyle_RObj, eachEntry_app.
  rewrite obj_get_app_css by done.
  destruct (each _ _ _ fields _ _ log) as [[[st0 props0]|e] log0]; [|done].
  cbn [eachEntry]. rewrite decide_False by done.
  rewrite bool_decide_eq_false_2 by done.
  specialize (Hev props0).
  destruct (evaluateExpression Component element condition props0 childIndexMap)
    as [matched props1]. simpl in Hev. subst matched.
  intros Hrun. apply bind_Ok_inv in Hrun as ([nested props2] & log1 & Hnested & Hrun).
  rewrite Hpe in Hrun.
  apply bind_Ok_inv in Hrun as (pseudo & log2 & Hpseudo & Hrun).
  cbn [eachEntry] in Hrun. apply mret_Ok_inv in Hrun as [[= <- <-] <-].
  exists st0, props0, log0, nested, props1, log1, pseudo.
  repeat split; try done.
  - rewrite obj_get_set. by rewrite decide_True.
  - intros property Hne. rewrite obj_get_set. by rewrite decide_False.
Qed.






End rule_facts.

(** ** Resolution of an element, continued *)

Section resolve_facts.
Import Resolver.
Context (evaluateExpression :
           LookComponent → node → string → props_t → option ChildIndex.t → bool * props_t).
Context (isPseudoElement : string → bool).
Context (Component : LookComponent).

Local Abbreviation resolveLook :=
  (Resolver.resolveLook evaluateExpression isPseudoElement Component).

(** X5: A [look] prop that is neither [true] nor a string makes the resolution
    of the element fail: [false], numbers, [null] and [undefined] have no
    [split]. *)
Theorem resolveLook_fails_on_a_look_that_is_no_string
    type key ref props (look_ : prim) childIndexMap log :
  look props = Some look_ →
  look_ ≠ PBool true →
  (∀ name, look_ ≠ PStr name) →
  ∃ e log', resolveLook (Elem type key ref props) childIndexMap log = (Throw e, log').
Proof.
  intros Hlook Htrue Hstr. cbn [Resolver.resolveLook]. rewrite Hlook.
  unfold mbind at 1, M_bind at 1.
  match goal with |- context [match ?m log with _ => _ end] => destruct (m log) as [[c|e] log1] end;
    [|eauto].
  assert (∃ msg, looksOf look_ log1 = (Throw (TypeError msg), log1)) as [msg Hthrow].
  { destruct look_ as [| |[]|n|name]; try (eexists; reflexivity).
    - done.
    - by destruct (Hstr name). }
  exists (TypeError msg), log1.
  apply bind_Throw. by apply bind_Throw.
Qed.

(** X6: The resolved element keeps the type, the key and the ref of the element
    and always carries a style map, an empty one when nothing was resolved. *)
Theorem resolveLook_keeps_identity_and_sets_style
    type key ref props childIndexMap log resolved log' :
  resolveLook (Elem type key ref props) childIndexMap log = (Ok resolved, log') →
  ∃ props', resolved = Elem type key ref props' ∧ is_Some (style props').
Proof.
  intros Hrun. cbn [Resolver.resolveLook] in Hrun.
  apply bind_Ok_inv in Hrun as (newChildren & log1 & _ & Hrun).
  apply bind_Ok_inv in Hrun as ([newStyles newProps] & log2 & _ & Hrun).
  destruct (pseudoElements _ newChildren) as [styles0 newChildren0].
  apply mret_Ok_inv in Hrun as [<- _].
  eexists. split; [reflexivity|]. simpl. eauto.
Qed.

Lemma truthy_sval_node (v : option (sval node)) :
  truthy_sval v = true → truthy_node (from_option sval_node (Prim PUndef) v) = true.
Proof. by destruct v as [[p|n]|]. Qed.

Lemma pseudoElements_of_no_children styles :
  ∃ items, (pseudoElements styles (Arr [])).2 = Arr items ∧
           length items ≤ 1 ∧ Forall (λ child, truthy_node child = true) items.
Proof.
  unfold pseudoElements.
  destruct (truthy_sval (obj_get "before" styles)) eqn:Hb; cbn [orb snd].
  - eexists. split; [reflexivity|]. split; [simpl; lia|].
    constructor; [by apply truthy_sval_node|constructor].
  - destruct (truthy_sval (obj_get "after" styles)) eqn:Ha; cbn [snd].
    + eexists. split; [reflexivity|]. split; [simpl; lia|].
      constructor; [by apply truthy_sval_node|constructor].
    + exists []. split; [reflexivity|]. split; [simpl; lia|constructor].
Qed.

(** X7: An only child that is falsy (0, the empty string, [false], [null],
    [undefined]) is not passed on: the resolved element has an array of children
    that holds at most the element synthesised for a pseudo-element, and nothing
    falsy. *)
Theorem resolveLook_drops_a_falsy_only_child
    type key ref props (child : prim) childIndexMap log resolved log' :
  children props = Prim child →
  truthy child = false →
  resolveLook (Elem type key ref props) childIndexMap log = (Ok resolved, log') →
  ∃ items, childrenOf resolved = Arr items ∧
           length items ≤ 1 ∧ Forall (λ item, truthy_node item = true) items.
Proof.
  intros Hch Hfalsy Hrun. cbn [Resolver.resolveLook] in Hrun.
  rewrite Hch in Hrun. cbn [truthy_node] in Hrun. rewrite Hfalsy in Hrun.
  apply bind_Ok_inv in Hrun as (newChildren & log1 & Hc & Hrun).
  apply mret_Ok_inv in Hc as [<- <-].
  apply bind_Ok_inv in Hrun as ([newStyles newProps] & log2 & _ & Hrun).
  match type of Hrun with
  | context [pseudoElements ?s (Arr [])] =>
      destruct (pseudoElements_of_no_children s) as (items & Hitems & Hlen & Hall);
      destruct (pseudoElements s (Arr [])) as [styles0 newChildren0]
  end.
  apply mret_Ok_inv in Hrun as [<- _]. simpl in *. subst. eauto.
Qed.
End resolve_facts.

(** ** Pseudo-elements and class names *)

Section pseudo_facts.
Import JsString Resolver.

Lemma includes_true (needle s : string) :
  includes needle s = true ↔ ∃ l r, s = l +:+ needle +:+ r.
Proof.
  induction s as [|c s IH].
  - simpl. rewrite orb_false_r, prefixb_true. split.
    + intros [r Hr]. by exists "", r.
    + intros ([|c l] & r & Hr); [by exists r|]. by rewrite sapp_cons in Hr.
  - cbn [includes]. rewrite orb_true_iff, prefixb_true, IH. split.
    + intros [[r Hr]|(l & r & ->)]; [by exists "", r|]. by exists (String c l), r.
    + intros ([|c' l] & r & Hr); [left; by exists r|].
      rewrite sapp_cons in Hr. simplify_eq. right. eauto.
Qed.

Lemma split_go_no_occurrence (sep s : string) :
  sep ≠ "" → includes sep s = false → split_go sep s 0 = [s].
Proof.
  intros Hsep Hinc.
  destruct (split_go_first sep s Hsep) as [[H _]|(left_ & rest & Hs & _)]; [done|].
  assert (includes sep s = true) as Ht by (apply includes_true; eauto). congruence.
Qed.

Lemma take_app_length (a b : string) : take (String.length a) (a +:+ b) = a.
Proof. induction a as [|c a IH]; [by destruct b|]. rewrite sapp_cons. simpl. by rewrite IH. Qed.

Lemma take_all (n : nat) (s : string) : String.length s ≤ n → take n s = s.
Proof.
  revert n. induction s as [|c s IH]; intros n Hn; [by destruct n|].
  destruct n as [|n]; simpl in *; [lia|]. rewrite IH; [done|lia].
Qed.

(** An occurrence of "url(" that starts before the end of [pre] lies within
    [pre] followed by "url". *)
Lemma url_occurrence_position (pre tail left_ rest : string) :
  pre +:+ "url(" +:+ tail = left_ +:+ "url(" +:+ rest →
  includes "url(" (pre +:+ "url") = false →
  String.length left_ ≤ String.length pre →
  left_ = pre ∧ rest = tail.
Proof.
  intros Heq Hinc Hlen. symmetry in Heq.
  destruct (sapp_cut _ _ _ _ Heq Hlen) as (x0 & Hpre & Hrest).
  assert (x0 = "") as ->.
  { destruct x0 as [|c1 x0]; [done|]. exfalso.
    assert (includes "url(" (pre +:+ "url") = true) as Ht; [|congruence].
    apply includes_true. rewrite Hpre.
    destruct x0 as [|c2 [|c3 [|c4 x0]]];
      rewrite ?sapp_cons, ?sapp_nil_l in Hrest; simplify_eq.
    exists left_, (x0 +:+ "url"). by rewrite !sapp_assoc. }
  rewrite sapp_nil_l in Hrest. split.
  - rewrite Hpre. clear. induction left_ as [|c l IH]; [done|]. by rewrite sapp_cons, <- IH.
  - by apply (inj (String.app "url(")) in Hrest.
Qed.

(** X9: [createPseudoImage] takes the text between "url(" and the closing
    parenthesis as the source of the image when the content starts with "url(";
    when anything stands before it, the closing parenthesis stays in the source. *)
Theorem createPseudoImage_source (pre x : string) (log : list string) :
  includes "url(" (pre +:+ "url") = false →
  includes "url(" (x +:+ ")") = false →
  createPseudoImage (pre +:+ "url(" +:+ x +:+ ")") log
  = (Ok (Elem (TTag "img") PNull PNull
           (mkProps None None None
              [("src", AVal (PStr (if decide (pre = "") then x else x +:+ ")")))]
              (Prim PUndef))),
     log).
Proof.
  intros Hpre Hx. unfold createPseudoImage, split.
  rewrite bool_decide_eq_false_2 by done.
  destruct (split_go_first "url(" (pre +:+ "url(" +:+ x +:+ ")"))
    as [[_ Hnone]|(left_ & rest & Hs & -> & Hmin)]; [done|by destruct (Hnone pre (x +:+ ")"))|].
  destruct (url_occurrence_position pre (x +:+ ")") left_ rest Hs Hpre) as [-> ->].
  { destruct (Hmin pre (x +:+ ")") eq_refl) as [x0 Hrest].
    apply (f_equal String.length) in Hs. rewrite Hrest, !slength_app in Hs. lia. }
  rewrite split_go_no_occurrence by done. cbn [lookup list_lookup].
  unfold mret, M_ret, createElement, set_children, substr0. simpl.
  do 9 f_equal.
  rewrite !slength_app. simpl.
  replace (Z.to_nat (Z.of_nat (String.length pre + S (S (S (S (String.length x + 1))))) - 5))
    with (String.length pre + String.length x) by lia.
  destruct (decide (pre = "")) as [->|Hne].
  - simpl. apply take_app_length.
  - apply take_all. rewrite slength_app. destruct pre; [done|]. simpl. lia.
Qed.
Lemma createPseudoImage_Ok (content : string) (log : list string) :
  includes "url(" content = true → ∃ img, createPseudoImage content log = (Ok img, log).
Proof.
  intros (l & r & Hs)%includes_true. unfold createPseudoImage, split.
  rewrite bool_decide_eq_false_2 by done.
  destruct (split_go_first "url(" content)
    as [[_ Hnone]|(left_ & rest & _ & -> & _)]; [done|by destruct (Hnone l r)|].
  pose proof (split_go_not_nil "url(" rest 0) as Hne.
  destruct (split_go "url(" rest 0) as [|piece pieces]; [done|].
  cbn [lookup list_lookup]. eauto.
Qed.

Lemma addPseudoElement_run (styles : styles_t) (log : list string) :
  (∀ pseudo log', addPseudoElement styles log = (Ok pseudo, log') →
     log' = log ∧
     ∃ style' payload,
       pseudo = createElement "span" (set_style style' emptyProps) payload ∧
       (∀ property, property ≠ "content" → obj_get property style' = obj_get property styles) ∧
       truthy_sval (obj_get "content" style') = false ∧
       ∃ text,
         text = match obj_get "content" styles with
                | Some (SPrim (PStr s)) => s
                | _ => ""
                end ∧
         if includes "url(" text
         then ∃ img, createPseudoImage text log = (Ok img, log) ∧ payload = Arr [img]
         else payload = Prim (PStr text))
  ∧ ((∃ e, addPseudoElement styles log = (Throw e, log)) ↔
     truthy_sval (obj_get "content" styles) = true ∧
     ∀ s, obj_get "content" styles ≠ Some (SPrim (PStr s))).
Proof.
  unfold addPseudoElement.
  destruct (truthy_sval (obj_get "content" styles)) eqn:Htruthy.
  - destruct (obj_get "content" styles) as [[p|n]|] eqn:Hget; [|..].
    + destruct p as [| |b|z|s];
        try (split; [intros pseudo log' [=]|];
             split; [intros _; split; [done|by intros s]|intros _; eauto]).
      rewrite (bind_Ok _ _ log (s, obj_delete "content" styles) log) by done.
      cbn beta iota. destruct (includes "url(" s) eqn:Hurl.
      * destruct (createPseudoImage_Ok s log Hurl) as [img Himg].
        rewrite (bind_Ok _ _ log (Arr [img]) log)
          by (by rewrite (bind_Ok _ _ log img log)).
        split.
        -- intros pseudo log' [<- <-]%mret_Ok_inv. split; [done|].
           exists (obj_delete "content" styles), (Arr [img]).
           split; [done|]. split.
           { intros property Hp. by rewrite obj_get_delete, decide_False. }
           split; [by rewrite obj_get_delete, decide_True|].
           exists s. split; [done|]. rewrite Hurl. eauto.
        -- split; [by intros [e [=]]|]. intros [_ Hs]. by destruct (Hs s).
      * rewrite (bind_Ok _ _ log (Prim (PStr s)) log) by done.
        split.
        -- intros pseudo log' [<- <-]%mret_Ok_inv. split; [done|].
           exists (obj_delete "content" styles), (Prim (PStr s)).
           split; [done|]. split.
           { intros property Hp. by rewrite obj_get_delete, decide_False. }
           split; [by rewrite obj_get_delete, decide_True|].
           exists s. split; [done|]. by rewrite Hurl.
        -- split; [by intros [e [=]]|]. intros [_ Hs]. by destruct (Hs s).
    + split; [intros pseudo log' [=]|].
      split; [intros _; split; [done|by intros s]|intros _; eauto].
    + done.
  - rewrite (bind_Ok _ _ log ("", styles) log) by done. cbn beta iota.
    change (includes "url(" "") with false. cbn match.
    rewrite (bind_Ok _ _ log (Prim (PStr "")) log) by done.
    split.
    + intros pseudo log' [<- <-]%mret_Ok_inv. split; [done|].
      exists styles, (Prim (PStr "")). split; [done|]. split; [done|].
      split; [done|]. exists "". split.
      * destruct (obj_get "content" styles) as [[[| |b|z|s]|n]|]; try done.
        simpl in Htruthy. by destruct s.
      * done.
    + split; [by intros [e [=]]|by intros [[=] _]].
Qed.

(** X10: [addPseudoElement] builds a span whose style is the given style object
    without a truthy [content]: every other property is kept, the content text
    becomes the child of the span, or one image when the text contains "url(".
    The console is left alone. With a primitive content it fails exactly when
    the content is truthy and no string (a number, [true]); without a content it
    does not fail. *)
Theorem addPseudoElement_moves_content_into_the_span (styles : styles_t) (log : list string) :
  (∀ pseudo log', addPseudoElement styles log = (Ok pseudo, log') →
     log' = log ∧
     ∃ style' payload,
       pseudo = createElement "span" (set_style style' emptyProps) payload ∧
       (∀ property, property ≠ "content" → obj_get property style' = obj_get property styles) ∧
       truthy_sval (obj_get "content" style') = false ∧
       ∃ text,
         text = match obj_get "content" styles with
                | Some (SPrim (PStr s)) => s
                | _ => ""
                end ∧
         if includes "url(" text
         then ∃ img, createPseudoImage text log = (Ok img, log) ∧ payload = Arr [img]
         else payload = Prim (PStr text))
  ∧ (∀ content, obj_get "content" styles = Some (SPrim content) →
       (∃ e, addPseudoElement styles log = (Throw e, log)) ↔
       truthy content = true ∧ ∀ s, content ≠ PStr s)
  ∧ (obj_get "content" styles = None →
     ∃ pseudo, addPseudoElement styles log = (Ok pseudo, log)).
Proof.
  destruct (addPseudoElement_run styles log) as [Hok Hthrow].
  split; [exact Hok|]. split.
  - intros content Hget. rewrite Hthrow, Hget. simpl. split.
    + intros [Ht Hs]. split; [done|]. intros s ->. by destruct (Hs s).
    + intros [Ht Hs]. split; [done|]. intros s [= ->]. by destruct (Hs s).
  - intros Hnone. unfold addPseudoElement. rewrite Hnone. eexists. reflexivity.
Qed.

Lemma join_snoc (a c : string) (cs : list string) :
  join " " ((a +:+ " " +:+ c) :: cs) = join " " (a :: c :: cs).
Proof.
  destruct cs as [|c' cs]; [done|].
  rewrite !join_cons by done. by rewrite !sapp_assoc.
Qed.

(** X11: Class names accumulate: applying [resolveClassName] for a list of
    non-empty names, in order, to props without a class name leaves the names
    joined by single spaces. *)
Theorem resolveClassName_joins_with_spaces (names : list string) (newProps : props_t) :
  truthy_rvalue (className newProps) = false →
  names ≠ [] →
  Forall (λ name, name ≠ "") names →
  className (foldl (λ props name, resolveClassName (RPrim (PStr name)) props) newProps names)
  = Some (RPrim (PStr (join " " names))).
Proof.
  intros Hfalsy Hne Hnames.
  destruct names as [|a names]; [done|]. clear Hne.
  apply Forall_cons in Hnames as [Ha Hnames]. cbn [foldl].
  unfold resolveClassName at 2. rewrite Hfalsy.
  assert (className (set_className (RPrim (PStr a)) newProps) = Some (RPrim (PStr a)))
    as Hclass by done.
  revert Hclass Ha. generalize (set_className (RPrim (PStr a)) newProps).
  clear Hfalsy newProps. revert a.
  induction names as [|c names IH]; intros a props Hclass Ha; [done|].
  apply Forall_cons in Hnames as [Hc Hnames]. cbn [foldl].
  rewrite <- join_snoc. apply IH; [done| |by destruct a].
  unfold resolveClassName. rewrite Hclass. simpl.
  by destruct a.
Qed.
End pseudo_facts.

(** ** The children loop *)

Section children_facts.
Import Resolver.
Context {R : Type} (rec : node → ChildIndex.t → M R) (keep : node → R).

Lemma generateTypeMap_from_Ok_inv l indexMap log typeMap log' :
  generateTypeMap_from l indexMap log = (Ok typeMap, log') →
  Forall (λ child, nullish_node child = false) l.
Proof.
  intros Hrun. destruct (nullish_dec_siblings l) as [Hnn|Hex]; [done|].
  destruct (generateTypeMap_from_Throw l indexMap log Hex) as (msg & Hm). congruence.
Qed.

Lemma forEachChild_positions oldChildren typeMap l index indexMap acc log results log' :
  Forall (λ child, nullish_node child = false) l →
  forEachChild rec keep oldChildren typeMap l index indexMap acc log = (Ok results, log') →
  ∃ rs, results = acc ++ rs ∧ length rs = length l ∧
    ∀ i child, l !! i = Some child →
      if truthy_node child then
        ∃ childIndex r log1 log2,
          metadataFrom (length oldChildren) typeMap l index indexMap !! i
            = Some (Some childIndex) ∧
          rec child childIndex log1 = (Ok r, log2) ∧ rs !! i = Some r
      else rs !! i = Some (keep child).
Proof.
  intros Hl. revert index indexMap acc log.
  induction Hl as [|c l Hc _ IH]; intros index indexMap acc log Hrun.
  - apply mret_Ok_inv in Hrun as [<- _]. exists []. by rewrite app_nil_r.
  - cbn [forEachChild] in Hrun. destruct (truthy_node c) eqn:Ht.
    + rewrite (bind_Ok _ _ _ _ _ (generateIndexMap_Ok c indexMap log Hc)) in Hrun.
      destruct (getChildType_Ok c log Hc) as (t & Hty & Hk).
      rewrite (bind_Ok _ _ _ _ _ Hty), Hk in Hrun.
      apply bind_Ok_inv in Hrun as (r & log1 & Hr & Hrun).
      apply IH in Hrun as (rs & -> & Hlen & Hrs).
      exists (r :: rs). split; [by rewrite <- app_assoc|]. split; [by rewrite length_cons, Hlen|].
      intros [|i] child Hi; simpl in Hi.
      * simplify_eq. rewrite Ht. cbn [metadataFrom]. rewrite Ht. eauto 10.
      * specialize (Hrs i child Hi). cbn [metadataFrom]. rewrite Ht. done.
    + destruct (is_undefined c) eqn:Hu.
      { destruct c as [[]| |]; simpl in *; congruence. }
      apply IH in Hrun as (rs & -> & Hlen & Hrs).
      exists (keep c :: rs). split; [by rewrite <- app_assoc|]. split; [by rewrite length_cons, Hlen|].
      intros [|i] child Hi; simpl in Hi.
      * simplify_eq. by rewrite Ht.
      * specialize (Hrs i child Hi). cbn [metadataFrom]. rewrite Ht. done.
Qed.

(** X12: A completed pass over an array of children yields one result per child,
    in order: a falsy child is passed through at its position, and the result
    for a truthy child comes from the recursive call on that child with the
    record that [positionalMetadata] lists for its position. No child of the
    array is then [null] or [undefined]. *)
Theorem resolveChildren_keeps_positions
    (siblings : list node) (log log' : list string) (results : list R) :
  resolveChildren rec keep siblings log = (Ok results, log') →
  length results = length siblings ∧
  Forall (λ child, nullish_node child = false) siblings ∧
  ∃ metas,
    positionalMetadata siblings log = (Ok metas, log) ∧
    ∀ i child, siblings !! i = Some child →
      if truthy_node child then
        ∃ childIndex r log1 log2,
          metas !! i = Some (Some childIndex) ∧
          rec child childIndex log1 = (Ok r, log2) ∧ results !! i = Some r
      else metas !! i = Some None ∧ results !! i = Some (keep child).
Proof.
  unfold resolveChildren, generateTypeMap. intros Hrun.
  apply bind_Ok_inv in Hrun as (typeMap & log1 & Hmap & Hrun).
  pose proof (generateTypeMap_from_Ok_inv _ _ _ _ _ Hmap) as Hnn.
  rewrite generateTypeMap_from_Ok in Hmap by done. simplify_eq.
  apply forEachChild_positions in Hrun as (rs & -> & Hlen & Hrs); [|done].
  split; [done|]. split; [done|]. eexists. split; [by apply positionalMetadata_Ok|].
  intros i child Hi. specialize (Hrs i child Hi).
  destruct (truthy_node child) eqn:Ht; [done|]. split; [|done].
  by rewrite (metadataFrom_lookup _ _ _ _ _ _ _ Hi), Ht.
Qed.
End children_facts.

Section children_of_the_result.
Import Resolver.
Context (evaluateExpression :
           LookComponent → node → string → props_t → option ChildIndex.t → bool * props_t).
Context (isPseudoElement : string → bool).
Context (Component : LookComponent).

Lemma pseudoElements_of_an_array styles items :
  (pseudoElements styles (Arr items)).2 = Arr items ∨
  (∃ pseudo, (pseudoElements styles (Arr items)).2 = Arr (pseudo :: items)) ∨
  (∃ pseudo, (pseudoElements styles (Arr items)).2 = Arr (items ++ [pseudo])).
Proof.
  unfold pseudoElements.
  destruct (truthy_sval (obj_get "before" styles)) eqn:Hb; cbn [orb snd].
  - right. left. eauto.
  - destruct (truthy_sval (obj_get "after" styles)) eqn:Ha; cbn [snd].
    + right. right. eauto.
    + by left.
Qed.

(** X26: The children of a resolved element keep their order: an array of
    children is answered by an array with one entry per child, every falsy child
    (false, 0, the empty string) unchanged at its position, and at most one
    further entry, put in front or at the end, for a pseudo-element. *)
Theorem resolveLook_keeps_the_children_in_order
    type key ref props items childIndexMap log resolved log' :
  children props = Arr items →
  resolveLook evaluateExpression isPseudoElement Component
    (Elem type key ref props) childIndexMap log = (Ok resolved, log') →
  ∃ resolvedItems,
    length resolvedItems = length items ∧
    (∀ i child, items !! i = Some child → truthy_node child = false →
       resolvedItems !! i = Some child) ∧
    (childrenOf resolved = Arr resolvedItems ∨
     (∃ pseudo, childrenOf resolved = Arr (pseudo :: resolvedItems)) ∨
     (∃ pseudo, childrenOf resolved = Arr (resolvedItems ++ [pseudo]))).
Proof.
  intros Hch Hrun. cbn [Resolver.resolveLook] in Hrun. rewrite Hch in Hrun.
  cbn [truthy_node] in Hrun.
  apply bind_Ok_inv in Hrun as (newChildren & log1 & Hchildren & Hrun).
  unfold fmap, M_fmap in Hchildren.
  apply bind_Ok_inv in Hchildren as (resolvedItems & log0 & Hloop & Hret).
  apply mret_Ok_inv in Hret as [<- <-].
  unfold resolveChildren, generateTypeMap in Hloop.
  apply bind_Ok_inv in Hloop as (typeMap & log2 & Hmap & Hloop).
  pose proof (generateTypeMap_from_Ok_inv _ _ _ _ _ Hmap) as Hnn.
  apply forEachChild_positions in Hloop as (rs & -> & Hlen & Hrs); [|done].
  exists rs. split; [done|]. split.
  { intros i child Hi Hfalsy. specialize (Hrs i child Hi). by rewrite Hfalsy in Hrs. }
  apply bind_Ok_inv in Hrun as ([newStyles newProps] & log3 & _ & Hrun).
  match type of Hrun with
  | context [pseudoElements ?s (Arr ?l)] =>
      pose proof (pseudoElements_of_an_array s l) as Hshape;
      destruct (pseudoElements s (Arr l)) as [styles0 newChildren0]
  end.
  apply mret_Ok_inv in Hrun as [<- _]. exact Hshape.
Qed.
End children_of_the_result.

(** X13: Every record of a completed pass is in range: the position lies between
    1 and the number of siblings, and the per-kind position between 1 and the
    per-kind total, also when falsy siblings are skipped in between. *)
Theorem positionalMetadata_in_range
    (siblings : list node) (log log' : list string)
    (metas : list (option ChildIndex.t)) (i : nat) (childIndex : ChildIndex.t) :
  positionalMetadata siblings log = (Ok metas, log') →
  metas !! i = Some (Some childIndex) →
  1 ≤ ChildIndex.index childIndex ≤ ChildIndex.length childIndex ∧
  ∃ typeIndex typeIndexLength,
    ChildIndex.typeIndex childIndex = Some typeIndex ∧
    ChildIndex.typeIndexLength childIndex = Some typeIndexLength ∧
    1 ≤ typeIndex ≤ typeIndexLength.
Proof.
  intros Hrun Hi.
  destruct (nullish_dec_siblings siblings) as [Hnn|Hex].
  2:{ destruct (positionalMetadata_Throw siblings log Hex) as (msg & Hm). congruence. }
  rewrite positionalMetadata_Ok in Hrun by done. simplify_eq.
  destruct (siblings !! i) as [child|] eqn:Hc.
  2:{ apply lookup_ge_None in Hc. apply lookup_lt_Some in Hi.
      rewrite metadataFrom_length in Hi. lia. }
  rewrite (metadataFrom_lookup _ _ _ _ _ _ _ Hc) in Hi.
  destruct (truthy_node child) eqn:Ht; simplify_eq. simpl.
  apply lookup_lt_Some in Hc as Hlt. split; [lia|].
  rewrite bumps_lookup_member by (by eapply list_elem_of_lookup_2).
  rewrite lookup_empty. simpl. do 2 eexists. split; [done|]. split; [done|].
  assert (child ∈ filter (λ c, truthy_node c = true) (take (S i) siblings)) as Hin.
  { apply list_elem_of_filter. split; [done|].
    apply list_elem_of_lookup. exists i. rewrite lookup_take_lt by lia. done. }
  split.
  - unfold count_kind. 
    assert (child ∈ filter (λ sibling, kindOf sibling = kindOf child)
                      (filter (λ c, truthy_node c = true) (take (S i) siblings))) as Hin'.
    { by apply list_elem_of_filter. }
    destruct (filter _ (filter _ _)); [by apply elem_of_nil in Hin'|simpl; lia].
  - unfold count_kind. rewrite <- (take_drop (S i) siblings) at 2.
    rewrite filter_app, length_app.
    etrans; [|apply Nat.le_add_r].
    clear. induction (take (S i) siblings) as [|c l IH]; [done|].
    rewrite filter_cons. destruct (decide (truthy_node c = true)).
    + rewrite !filter_cons. destruct (decide (kindOf c = kindOf child)); simpl; lia.
    + rewrite filter_cons. destruct (decide (kindOf c = kindOf child)); simpl; lia.
Qed.

(** ** The substring handler on any list of matches *)

Section substr_facts.
Import Substr.
Context (getPseudoExpression : string → string).
Context (matchAll : string → string → option (list string)).

Lemma forEachMatch_shape (styles : styles_t) (matches : list string)
    (text : string) (acc : list node) :
  ∃ last newChildren,
    forEachMatch styles matches text acc = (last, newChildren) ∧
    length newChildren = length acc + 2 * length matches ∧
    (∀ j, j < length acc → newChildren !! j = acc !! j) ∧
    (∀ i match_, matches !! i = Some match_ →
       newChildren !! (length acc + 2 * i + 1) = Some (wrapper styles match_)) ∧
    (∀ i, i < length matches →
       ∃ p, newChildren !! (length acc + 2 * i) = Some (Prim p)).
Proof.
  revert text acc. induction matches as [|match_ rest IH]; intros text acc.
  - exists text, acc. split; [done|]. split; [simpl; lia|]. split; [done|].
    split; [done|]. simpl. lia.
  - cbn [forEachMatch]. cbv zeta.
    set (left_ := match JsString.split text match_ with
                  | piece :: _ => Prim (PStr piece)
                  | [] => Prim PUndef
                  end).
    assert (∃ p, left_ = Prim p) as [p Hp].
    { subst left_. destruct (JsString.split text match_); eauto. }
    destruct (IH (JsString.join match_ (tail (JsString.split text match_)))
                ((acc ++ [left_]) ++
                 [createElement "span" (set_style styles emptyProps) (Prim (PStr match_))]))
      as (last & newChildren & Hrun & Hlen & Hacc & Hwrap & Htext).
    rewrite !length_app in Hlen, Hacc, Hwrap, Htext. simpl in Hlen, Hacc, Hwrap, Htext.
    exists last, newChildren. split; [exact Hrun|]. split; [simpl; lia|].
    split; [|split].
    + intros j Hj. rewrite Hacc by lia.
      rewrite <- app_assoc. by rewrite lookup_app_l by done.
    + intros [|i] m Hm; simpl in Hm.
      * injection Hm as ->. rewrite Hacc by lia.
        replace (length acc + 2 * 0 + 1) with (length (acc ++ [left_]))
          by (rewrite length_app; simpl; lia).
        by rewrite list_lookup_middle.
      * specialize (Hwrap i m Hm).
        by replace (length acc + 2 * S i + 1) with (length acc + 1 + 1 + 2 * i + 1) by lia.
    + intros [|i] Hi; simpl in Hi.
      * exists p. rewrite Hacc by lia. rewrite <- app_assoc, Hp.
        apply list_lookup_middle. lia.
      * destruct (Htext i) as [q Hq]; [lia|]. exists q.
        by replace (length acc + 2 * S i) with (length acc + 1 + 1 + 2 * i) by lia.
Qed.

(** X14: Whatever matches are reported for a text child, also empty or
    overlapping ones, the handler returns [false], writes nothing to the console
    and changes the children only: they become an array of [2 n + 1] entries for
    [n] matches, with the wrapper of the i-th match at position [2 i + 1] and a
    primitive at every even position. *)
Theorem substr_wraps_every_reported_match
    (property : string) (styles : styles_t) (customKey : prim) (newProps : props_t)
    (text : string) (matches : list string) (log : list string) :
  children newProps = Prim (PStr text) →
  matchAll (getPseudoExpression property) text = Some matches →
  ∃ items,
    substr getPseudoExpression matchAll property styles customKey newProps log
    = (Ok (None, set_children (Arr items) newProps), log) ∧
    length items = 2 * length matches + 1 ∧
    (∀ i match_, matches !! i = Some match_ →
       items !! (2 * i + 1) = Some (wrapper styles match_)) ∧
    (∀ i, i ≤ length matches → ∃ p, items !! (2 * i) = Some (Prim p)).
Proof.
  intros Hch Hm. unfold substr. rewrite Hch, Hm.
  destruct (forEachMatch_shape styles matches text [])
    as (last & newChildren & -> & Hlen & _ & Hwrap & Htext).
  simpl in Hlen, Hwrap, Htext.
  exists (newChildren ++ [Prim (PStr last)]). split; [done|].
  split; [rewrite length_app; simpl; lia|]. split.
  - intros i m Hi. rewrite lookup_app_l.
    + by apply Hwrap.
    + apply lookup_lt_Some in Hi. lia.
  - intros i Hi. destruct (decide (i = length matches)) as [->|Hne].
    + exists (PStr last). apply list_lookup_middle. lia.
    + destruct (Htext i) as [p Hp]; [lia|]. exists p.
      rewrite lookup_app_l; [done|lia].
Qed.
End substr_facts.

(** ** Browser state, further *)

Section browser_facts.
Import BrowserState.

Lemma createListener_fields C element key event callback :
  _lastActiveElements (createListener C element key event callback).2
    = _lastActiveElements C ∧
  _onMouseUp (createListener C element key event callback).2 = _onMouseUp C ∧
  look_state (createListener C element key event callback).2 = look_state C.
Proof. unfold createListener. by destruct (registry C !! (key, event)). Qed.

Lemma active_installs_release_handler_fields p s ck c :
  let out := (active p s ck c).2 in
  (_lastActiveElements (Component out)
     = Some (default [] (_lastActiveElements (Component c)))) ∧
  window out
    = match _onMouseUp (Component c), window c with
      | None, Some listeners => Some (listeners ++ [MouseUp])
      | _, _ => window c
      end ∧
  _onMouseUp (Component out)
    = match _onMouseUp (Component c), window c with
      | None, Some listeners => Some MouseUp
      | _, _ => _onMouseUp (Component c)
      end.
Proof.
  unfold active.
  set (key := identityKey (element c)).
  set (C0 := match _lastActiveElements (Component c) with
             | None => set_lastActiveElements (Some []) (Component c)
             | Some _ => Component c
             end).
  assert (_lastActiveElements C0 = Some (default [] (_lastActiveElements (Component c)))
          ∧ _onMouseUp C0 = _onMouseUp (Component c)) as [Hl0 Hu0].
  { subst C0. by destruct (_lastActiveElements (Component c)) eqn:Hlast. }
  destruct (createListener_fields C0 (element c) key "onMouseDown" (MouseDown key))
    as (Hl1 & Hu1 & _).
  destruct (createListener C0 (element c) key "onMouseDown" (MouseDown key))
    as [handler C1]. simpl in Hl1, Hu1.
  rewrite <- Hu0, <- Hu1, <- Hl0, <- Hl1.
  by destruct (_onMouseUp C1) eqn:Hup, (window c) eqn:Hwin.
Qed.

(** X15: [active] installs the owner's release handler at most once: an
    evaluation adds the handler to the window's mouse-up listeners exactly when
    the owner has none yet and there is a window, and after an evaluation in a
    window further evaluations, for whatever element of the same owner, add
    nothing. The list of active keys exists afterwards. *)
Theorem active_installs_the_release_handler_once
    (property : string) (styles : styles_t) (customKey : prim) (ctx : Context) :
  let out := (active property styles customKey ctx).2 in
  is_Some (_lastActiveElements (Component out)) ∧
  window out
    = match _onMouseUp (Component ctx), window ctx with
      | None, Some listeners => Some (listeners ++ [MouseUp])
      | _, _ => window ctx
      end ∧
  (is_Some (window ctx) → is_Some (_onMouseUp (Component out))) ∧
  (window ctx = None → _onMouseUp (Component out) = _onMouseUp (Component ctx)) ∧
  ∀ property' styles' customKey' element' newProps',
    is_Some (window ctx) →
    let again :=
      (active property' styles' customKey'
         (mkContext element' (Component out) newProps' (window out))).2 in
    window again = window out ∧
    _onMouseUp (Component again) = _onMouseUp (Component out) ∧
    _lastActiveElements (Component again) = _lastActiveElements (Component out).
Proof.
  pose proof active_installs_release_handler_fields as Hstep.
  intros out. destruct (Hstep property styles customKey ctx) as (Hl & Hw & Hu).
  fold out in Hl, Hw, Hu.
  split; [by rewrite Hl|]. split; [exact Hw|]. split.
  { intros [listeners Hwin]. rewrite Hu, Hwin. by destruct (_onMouseUp (Component ctx)). }
  split.
  { intros Hwin. rewrite Hu, Hwin. by destruct (_onMouseUp (Component ctx)). }
  intros property' styles' customKey' element' newProps' [listeners Hwin] again.
  destruct (Hstep property' styles' customKey'
              (mkContext element' (Component out) newProps' (window out)))
    as (Hl' & Hw' & Hu').
  fold again in Hl', Hw', Hu'. cbn [Component window] in Hl', Hw', Hu'.
  assert (is_Some (_onMouseUp (Component out))) as [h Hh].
  { rewrite Hu, Hwin. by destruct (_onMouseUp (Component ctx)). }
  rewrite Hh in Hw', Hu'. rewrite Hl in Hl'. simpl in Hl'.
  split; [done|]. split; [by rewrite Hu', Hh|]. by rewrite Hl', Hl.
Qed.
Lemma getState_look_state name C C' key :
  look_state C' = look_state C → getState name C' key = getState name C key.
Proof. unfold getState. by intros ->. Qed.

(** What the three handlers return depends on the stored state only, and
    evaluating them does not change the stored state. *)
Lemma handlers_read_state property styles customKey ctx :
  let key := identityKey (element ctx) in
  ((active property styles customKey ctx).1
     = (if getState "active" (Component ctx) key then Some styles else None) ∧
   look_state (Component (active property styles customKey ctx).2)
     = look_state (Component ctx)) ∧
  ((hover property styles customKey ctx).1
     = (if getState "hover" (Component ctx) key then Some styles else None) ∧
   look_state (Component (hover property styles customKey ctx).2)
     = look_state (Component ctx)) ∧
  ((focus property styles customKey ctx).1
     = (if getState "focus" (Component ctx) key then Some styles else None) ∧
   look_state (Component (focus property styles customKey ctx).2)
     = look_state (Component ctx)).
Proof.
  intros key. unfold active, hover, focus. fold key. split; [|split].
  - set (C0 := match _lastActiveElements (Component ctx) with
               | None => set_lastActiveElements (Some []) (Component ctx)
               | Some _ => Component ctx
               end).
    assert (look_state C0 = look_state (Component ctx)) as Hs0.
    { subst C0. by destruct (_lastActiveElements (Component ctx)). }
    destruct (createListener_fields C0 (element ctx) key "onMouseDown" (MouseDown key))
      as (_ & _ & Hs1).
    destruct (createListener C0 (element ctx) key "onMouseDown" (MouseDown key))
      as [handler C1]. simpl in Hs1.
    assert (look_state C1 = look_state (Component ctx)) as Hs by congruence.
    destruct (_onMouseUp C1), (window ctx); cbn [fst snd Component];
      by rewrite ?(getState_look_state _ (Component ctx)) by done.
  - destruct (createListener_fields (Component ctx) (element ctx) key "onMouseEnter"
                (SetState "hover" true key)) as (_ & _ & Hs1).
    destruct (createListener (Component ctx) (element ctx) key "onMouseEnter"
                (SetState "hover" true key)) as [enter C1]. simpl in Hs1.
    destruct (createListener_fields C1 (element ctx) key "onMouseLeave"
                (SetState "hover" false key)) as (_ & _ & Hs2).
    destruct (createListener C1 (element ctx) key "onMouseLeave"
                (SetState "hover" false key)) as [leave C2]. simpl in Hs2.
    cbn [fst snd Component].
    split; [by rewrite (getState_look_state _ (Component ctx)) by congruence|congruence].
  - destruct (createListener_fields (Component ctx) (element ctx) key "onFocus"
                (SetState "focus" true key)) as (_ & _ & Hs1).
    destruct (createListener (Component ctx) (element ctx) key "onFocus"
                (SetState "focus" true key)) as [onFocus C1]. simpl in Hs1.
    destruct (createListener_fields C1 (element ctx) key "onBlur"
                (SetState "focus" false key)) as (_ & _ & Hs2).
    destruct (createListener C1 (element ctx) key "onBlur"
                (SetState "focus" false key)) as [onBlur C2]. simpl in Hs2.
    cbn [fst snd Component].
    split; [by rewrite (getState_look_state _ (Component ctx)) by congruence|congruence].
Qed.

Lemma active_registers_mouse_down property styles customKey ctx :
  registry_wf (Component ctx) →
  newProps (active property styles customKey ctx).2 !! "onMouseDown"
  = Some (MouseDown (identityKey (element ctx))).
Proof.
  intros Hwf. unfold active. set (key := identityKey (element ctx)).
  set (C0 := match _lastActiveElements (Component ctx) with
             | None => set_lastActiveElements (Some []) (Component ctx)
             | Some _ => Component ctx
             end).
  assert (registry_wf C0) as Hwf0.
  { subst C0. by destruct (_lastActiveElements (Component ctx)). }
  destruct (createListener_wf C0 (element ctx) key "onMouseDown" (MouseDown key) Hwf0 eq_refl)
    as (C1 & -> & _ & _).
  destruct (_onMouseUp C1), (window ctx); cbn [snd newProps]; by rewrite lookup_insert_eq.
Qed.

(** X16: Press and release of a single element: on an owner with no pending
    presses, [active] registers the mouse-down closure of the element's identity
    key; after that closure has run [active] returns the style fragment; after
    the release handler has then run it returns [false] again, the list of
    active keys is empty and no other stored state has changed. *)
Theorem active_press_then_release
    (property : string) (styles : styles_t) (customKey : prim) (ctx : Context) :
  registry_wf (Component ctx) →
  default [] (_lastActiveElements (Component ctx)) = [] →
  let key := identityKey (element ctx) in
  let out := active property styles customKey ctx in
  newProps out.2 !! "onMouseDown" = Some (MouseDown key) ∧
  ∃ pressed released,
    invoke (MouseDown key) (Component out.2) = Some (Ok pressed) ∧
    (∀ newProps',
       (active property styles customKey
          (mkContext (element ctx) pressed newProps' (window out.2))).1 = Some styles) ∧
    invoke MouseUp pressed = Some (Ok released) ∧
    (∀ newProps',
       (active property styles customKey
          (mkContext (element ctx) released newProps' (window out.2))).1 = None) ∧
    _lastActiveElements released = Some [] ∧
    ∀ name key', (key', name) ≠ (key, "active") →
      getState name released key' = getState name (Component ctx) key'.
Proof.
  intros Hwf Hidle key out.
  split; [by apply active_registers_mouse_down|].
  destruct (active_installs_release_handler_fields property styles customKey ctx)
    as (Hl & _).
  destruct (handlers_read_state property styles customKey ctx) as ((_ & Hst) & _).
  fold out in Hl, Hst. rewrite Hidle in Hl.
  set (C := Component out.2) in *. clearbody C.
  exists (set_lastActiveElements (Some ([] ++ [key])) (setState "active" true C key)).
  eexists. split.
  { simpl. by rewrite Hl. }
  split.
  { intros np.
    destruct (handlers_read_state property styles customKey
                (mkContext (element ctx)
                   (set_lastActiveElements (Some ([] ++ [key])) (setState "active" true C key))
                   np (window out.2))) as ((-> & _) & _).
    cbn [element Component]. fold key.
    unfold getState. simpl. by rewrite lookup_insert_eq. }
  split.
  { cbn [invoke]. unfold onMouseUp.
    apply (onMouseUp_loop_first _ _ key []); [done|simpl; lia]. }
  split.
  { intros np.
    destruct (handlers_read_state property styles customKey
                (mkContext (element ctx)
                   (set_lastActiveElements (Some [])
                      (setState "active" false
                         (set_lastActiveElements (Some ([] ++ [key]))
                            (setState "active" true C key)) key))
                   np (window out.2))) as ((-> & _) & _).
    cbn [element Component]. fold key.
    unfold getState. simpl. by rewrite lookup_insert_eq. }
  split; [done|].
  intros name key' Hne. unfold getState. simpl.
  rewrite !lookup_insert_ne by congruence. by rewrite Hst.
Qed.

(** X17: The stored state belongs to the identity key, not to the element: after
    the enter listener that [hover] registered for one element has run, [hover]
    returns the style fragment for every element with the same identity key (two
    elements without key and ref share "root"), and what it returns for an
    element with another identity key is unchanged. *)
Theorem hover_state_is_shared_by_identity_key
    (property : string) (styles : styles_t) (customKey : prim) (ctx : Context) :
  registry_wf (Component ctx) →
  let out := hover property styles customKey ctx in
  ∃ enter entered,
    newProps out.2 !! "onMouseEnter" = Some enter ∧
    invoke enter (Component out.2) = Some (Ok entered) ∧
    ∀ element' property' styles' customKey' newProps',
      (hover property' styles' customKey'
         (mkContext element' entered newProps' (window ctx))).1
      = if decide (identityKey element' = identityKey (element ctx)) then Some styles'
        else (hover property' styles' customKey'
                (mkContext element' (Component ctx) newProps' (window ctx))).1.
Proof.
  intros Hwf out. set (key := identityKey (element ctx)).
  assert (newProps out.2 !! "onMouseEnter" = Some (SetState "hover" true key)) as Henter.
  { subst out. unfold hover. fold key.
    destruct (createListener_wf (Component ctx) (element ctx) key "onMouseEnter"
                (SetState "hover" true key) Hwf eq_refl) as (C1 & -> & Hwf1 & _).
    destruct (createListener_wf C1 (element ctx) key "onMouseLeave"
                (SetState "hover" false key) Hwf1 eq_refl) as (C2 & -> & _ & _).
    cbn [snd newProps]. by rewrite lookup_insert_ne, lookup_insert_eq. }
  destruct (handlers_read_state property styles customKey ctx) as (_ & (_ & Hst) & _).
  fold out in Hst.
  exists (SetState "hover" true key), (setState "hover" true (Component out.2) key).
  split; [done|]. split; [done|].
  intros element' property' styles' customKey' newProps'.
  destruct (handlers_read_state property' styles' customKey'
              (mkContext element' (setState "hover" true (Component out.2) key)
                 newProps' (window ctx))) as (_ & (-> & _) & _).
  destruct (handlers_read_state property' styles' customKey'
              (mkContext element' (Component ctx) newProps' (window ctx)))
    as (_ & (-> & _) & _).
  cbn [element Component]. rewrite getState_setState.
  destruct (decide (identityKey element' = key)) as [->|Hne].
  - by rewrite decide_True.
  - rewrite decide_False by congruence.
    by rewrite (getState_look_state _ (Component ctx)).
Qed.

(** X18: [focus] puts the focus and blur listeners of the element's identity key
    into the outgoing props and returns the style fragment exactly when the
    stored ["focus"] state of that key is true; running the focus listener makes
    it return the fragment and running the blur listener makes it return
    [false]. The stored ["hover"] and ["active"] states play no part: whatever a
    listener of another state name does, the result of [focus] stays. *)
Theorem focus_registers_listeners_and_ignores_other_states
    (property : string) (styles : styles_t) (customKey : prim) (ctx : Context) :
  registry_wf (Component ctx) →
  let key := identityKey (element ctx) in
  let out := focus property styles customKey ctx in
  let reevaluated C :=
    (focus property styles customKey
       (mkContext (element ctx) C (newProps out.2) (window ctx))).1 in
  newProps out.2 !! "onFocus" = Some (SetState "focus" true key) ∧
  newProps out.2 !! "onBlur" = Some (SetState "focus" false key) ∧
  (out.1 = Some styles ↔ getState "focus" (Component ctx) key = true) ∧
  (out.1 = None ↔ getState "focus" (Component ctx) key = false) ∧
  (∀ value, ∃ C',
     invoke (SetState "focus" value key) (Component out.2) = Some (Ok C') ∧
     reevaluated C' = if value then Some styles else None) ∧
  (∀ name value key', name ≠ "focus" → ∃ C',
     invoke (SetState name value key') (Component out.2) = Some (Ok C') ∧
     reevaluated C' = out.1) ∧
  registry_wf (Component out.2).
Proof.
  intros Hwf key out reevaluated.
  destruct (handlers_read_state property styles customKey ctx) as (_ & _ & Hres & Hst).
  fold key out in Hres, Hst.
  assert (∀ C, reevaluated C = if getState "focus" C key then Some styles else None) as Hre.
  { intros C. subst reevaluated. cbv beta.
    by destruct (handlers_read_state property styles customKey
                   (mkContext (element ctx) C (newProps out.2) (window ctx)))
      as (_ & _ & -> & _). }
  split; [|split].
  - subst out. unfold focus. fold key.
    destruct (createListener_wf (Component ctx) (element ctx) key "onFocus"
                (SetState "focus" true key) Hwf eq_refl) as (C1 & -> & Hwf1 & _).
    destruct (createListener_wf C1 (element ctx) key "onBlur"
                (SetState "focus" false key) Hwf1 eq_refl) as (C2 & -> & _ & _).
    cbn [snd newProps]. by rewrite lookup_insert_ne, lookup_insert_eq.
  - subst out. unfold focus. fold key.
    destruct (createListener_wf (Component ctx) (element ctx) key "onFocus"
                (SetState "focus" true key) Hwf eq_refl) as (C1 & -> & Hwf1 & _).
    destruct (createListener_wf C1 (element ctx) key "onBlur"
                (SetState "focus" false key) Hwf1 eq_refl) as (C2 & -> & _ & _).
    cbn [snd newProps]. by rewrite lookup_insert_eq.
  - rewrite Hres. split; [|split; [|split; [|split]]].
    + destruct (getState "focus" (Component ctx) key); naive_solver.
    + destruct (getState "focus" (Component ctx) key); naive_solver.
    + intros value. eexists. split; [done|]. rewrite Hre, getState_setState.
      by rewrite decide_True.
    + intros name value key' Hne. eexists. split; [done|]. rewrite Hre, getState_setState.
      rewrite decide_False by congruence.
      by rewrite (getState_look_state _ (Component ctx)).
    + by destruct (handlers_keep_registry_wf property styles customKey ctx Hwf)
        as (_ & _ & ?).
Qed.
End browser_facts.

(** ** The rule object after a resolution *)

Lemma rvalue_nested_ind (P : rvalue → Prop) :
  (∀ p, P (RPrim p)) →
  (∀ fields, Forall (λ kv, P kv.2) fields → P (RObj fields)) →
  ∀ rule, P rule.
Proof.
  intros Hp Ho. fix IH 1. intros [p|fields]; [apply Hp|].
  apply Ho. induction fields as [|[k v] fields IHf]; constructor; [apply IH|exact IHf].
Qed.

Lemma obj_get_None_keys {V} (k : string) (o : list (string * V)) :
  obj_get k o = None ↔ k ∉ o.*1.
Proof.
  induction o as [|[k' v] o IH]; simpl.
  - split; [intros _; apply not_elem_of_nil|done].
  - rewrite not_elem_of_cons. destruct (decide (k = k')) as [->|Hne]; naive_solver.
Qed.

Lemma obj_delete_keys {V} (k : string) (o : list (string * V)) : k ∉ (obj_delete k o).*1.
Proof.
  induction o as [|[k' v] o IH]; simpl; [apply not_elem_of_nil|].
  destruct (decide (k = k')); [done|]. rewrite fmap_cons, not_elem_of_cons. done.
Qed.

Lemma obj_delete_absent {V} (k : string) (o : list (string * V)) :
  k ∉ o.*1 → obj_delete k o = o.
Proof.
  induction o as [|[k' v] o IH]; simpl; [done|].
  rewrite not_elem_of_cons. intros [Hne Hnot].
  rewrite decide_False by done. by rewrite IH.
Qed.

Section in_place_facts.
Import Resolver.
Context (evaluateExpression :
           LookComponent → node → string → props_t → option ChildIndex.t → bool * props_t).
Context (isPseudoElement : string → bool).
Context (Component : LookComponent).

Local Abbreviation resolveStyle :=
  (Resolver.resolveStyle evaluateExpression isPseudoElement Component).
Local Abbreviation resolveInPlace :=
  (InPlace.resolveStyle evaluateExpression isPseudoElement Component).
Local Abbreviation each :=
  (eachEntry evaluateExpression isPseudoElement Component).
Local Abbreviation eachIn :=
  (eachInPlace evaluateExpression isPseudoElement Component).

Lemma resolveInPlace_RObj element fields newProps childIndexMap log :
  resolveInPlace element (RObj fields) newProps childIndexMap log
  = eachIn element childIndexMap
      (λ value newProps, resolveInPlace element value newProps childIndexMap)
      fields []
      match obj_get "css" fields with
      | Some css => resolveClassName css newProps
      | None => newProps
      end [] log.
Proof.
  cbn [InPlace.resolveStyle].
  match goal with
  | |- ?loop fields ?a ?b ?c log = ?loop' fields ?a ?b ?c log =>
      enough (∀ l newStyle newProps seen log0,
                loop l newStyle newProps seen log0 = loop' l newStyle newProps seen log0)
        as Hloop by apply Hloop
  end.
  clear log newProps. intros l.
  induction l as [|[property value] rest IH]; intros newStyle newProps seen log; [done|].
  cbn [eachInPlace].
  destruct (decide (property = "css")); [apply IH|].
  destruct value as [p|sub]; [apply IH|].
  destruct (bool_decide (sub = [])); [apply IH|].
  destruct (evaluateExpression Component element property newProps childIndexMap)
    as [[] newProps1]; [|apply IH].
  unfold mbind, M_bind.
  destruct (InPlace.resolveStyle _ _ _ _ _ _ _ log) as [[[[resolved newProps2] value']|e] log1];
    [|done].
  destruct (isPseudoElement property); [|apply IH].
  destruct (addPseudoElement resolved log1) as [[pseudo|e] log2]; [apply IH|done].
Qed.

(** The loop with the rule kept computes what the loop without it does. *)
Lemma eachIn_forgets element childIndexMap rec recIn l newStyle newProps seen log :
  Forall (λ kv, ∀ newProps log, rec kv.2 newProps log = forgetRule (recIn kv.2 newProps log)) l →
  each element childIndexMap rec l newStyle newProps log
  = forgetRule (eachIn element childIndexMap recIn l newStyle newProps seen log).
Proof.
  intros Hl. revert newStyle newProps seen log.
  induction Hl as [|[property value] rest Hrec _ IH]; intros newStyle newProps seen log; [done|].
  cbn [eachEntry eachInPlace].
  destruct (decide (property = "css")); [apply IH|].
  destruct value as [p|sub]; [apply IH|].
  destruct (bool_decide (sub = [])); [apply IH|].
  destruct (evaluateExpression Component element property newProps childIndexMap)
    as [[] newProps1]; [|apply IH].
  unfold mbind, M_bind. simpl in Hrec. rewrite Hrec.
  destruct (recIn (RObj sub) newProps1 log) as [[[[resolved newProps2] value']|e] log1];
    [|done].
  cbn [forgetRule].
  destruct (isPseudoElement property); [|apply IH].
  destruct (addPseudoElement resolved log1) as [[pseudo|e] log2]; [apply IH|done].
Qed.

Lemma resolveStyle_forgets_rule rule :
  ∀ element newProps childIndexMap log,
    resolveStyle element rule newProps childIndexMap log
    = forgetRule (resolveInPlace element rule newProps childIndexMap log).
Proof.
  induction rule as [p|fields IH] using rvalue_nested_ind;
    intros element newProps childIndexMap log; [done|].
  rewrite resolveStyle_RObj, resolveInPlace_RObj.
  apply eachIn_forgets.
  eapply Forall_impl; [exact IH|]. intros [k v] Hv newProps' log'. apply Hv.
Qed.

(** The loop leaves the entries in their order, without the [css] entry. *)
Lemma eachIn_keys element childIndexMap recIn l newStyle newProps seen log
    st props' rule' log' :
  eachIn element childIndexMap recIn l newStyle newProps seen log
  = (Ok (st, props', rule'), log') →
  ∃ fields', rule' = RObj (seen ++ fields') ∧ fields'.*1 = (obj_delete "css" l).*1.
Proof.
  revert newStyle newProps seen log.
  induction l as [|[property value] rest IH]; intros newStyle newProps seen log Hrun.
  - apply mret_Ok_inv in Hrun as [[= <- <- <-] _]. exists []. by rewrite app_nil_r.
  - cbn [eachInPlace] in Hrun. cbn [obj_delete].
    destruct (decide (property = "css")) as [->|Hne].
    { rewrite decide_True by done. by apply IH in Hrun. }
    rewrite decide_False by done.
    assert (∀ value' newStyle newProps log,
              eachIn element childIndexMap recIn rest newStyle newProps
                (seen ++ [(property, value')]) log = (Ok (st, props', rule'), log') →
              ∃ fields', rule' = RObj (seen ++ fields') ∧
                         fields'.*1 = ((property, value) :: obj_delete "css" rest).*1) as Hstep.
    { intros value' newStyle' newProps' log0 Hrest.
      apply IH in Hrest as (fields' & -> & Hkeys).
      exists ((property, value') :: fields'). rewrite <- app_assoc. split; [done|].
      rewrite !fmap_cons. by rewrite Hkeys. }
    destruct value as [p|sub]; [by eapply Hstep|].
    destruct (bool_decide (sub = [])); [by eapply Hstep|].
    destruct (evaluateExpression Component element property newProps childIndexMap)
      as [[] newProps1]; [|by eapply Hstep].
    apply bind_Ok_inv in Hrun as ([[resolved newProps2] value'] & log1 & _ & Hrun).
    destruct (isPseudoElement property); [|by eapply Hstep].
    apply bind_Ok_inv in Hrun as (pseudo & log2 & _ & Hrun). by eapply Hstep.
Qed.

Lemma resolveStyle_deletes_css_keys
    element fields newProps childIndexMap log st props' rule' log' :
  resolveInPlace element (RObj fields) newProps childIndexMap log
  = (Ok (st, props', rule'), log') →
  ∃ fields', rule' = RObj fields' ∧ "css" ∉ fields'.*1.
Proof.
  intros Hrun. rewrite resolveInPlace_RObj in Hrun.
  apply eachIn_keys in Hrun as (fields' & -> & Hkeys).
  exists fields'. split; [done|]. rewrite Hkeys. apply obj_delete_keys.
Qed.

(** X19: The rule object handed to [resolveStyle] has no [css] entry when the
    call returns: the entries are otherwise the same keys in the same order. The
    style map and the props are those of [Resolver.resolveStyle]. *)
Theorem resolveStyle_deletes_css_from_the_rule
    element fields newProps childIndexMap log st props' rule' log' :
  resolveInPlace element (RObj fields) newProps childIndexMap log
  = (Ok (st, props', rule'), log') →
  resolveStyle element (RObj fields) newProps childIndexMap log = (Ok (st, props'), log') ∧
  ∃ fields',
    rule' = RObj fields' ∧
    fields'.*1 = (obj_delete "css" fields).*1 ∧
    obj_get "css" fields' = None.
Proof.
  intros Hrun. split.
  - by rewrite resolveStyle_forgets_rule, Hrun.
  - rewrite resolveInPlace_RObj in Hrun.
    apply eachIn_keys in Hrun as (fields' & -> & Hkeys).
    exists fields'. split; [done|]. split; [done|].
    apply obj_get_None_keys. rewrite Hkeys. apply obj_delete_keys.
Qed.

Lemma css_free_RObj fields :
  css_free (RObj fields) = true ↔
  ("css" ∉ fields.*1) ∧ Forall (λ kv, css_free kv.2 = true) fields.
Proof.
  cbn [css_free]. rewrite andb_true_iff, forallb_forall, Forall_forall.
  rewrite <- obj_get_None_keys.
  split.
  - intros [Hcss Hall]. split; [by destruct (obj_get "css" fields)|].
    intros kv Hin. apply Hall. by apply list_elem_of_In.
  - intros [Hcss Hall]. split; [by rewrite Hcss|].
    intros kv Hin. apply Hall. by apply list_elem_of_In.
Qed.

(** Under an evaluator that accepts every condition the loop leaves no
    [css] entry in the nested rules either. *)
Lemma eachIn_css_free element childIndexMap recIn l newStyle newProps seen log
    st props' rule' log' :
  (∀ element property newProps childIndexMap,
     (evaluateExpression Component element property newProps childIndexMap).1 = true) →
  Forall (λ kv, ∀ newProps log st props' rule' log',
            recIn kv.2 newProps log = (Ok (st, props', rule'), log') →
            css_free rule' = true) l →
  Forall (λ kv, css_free kv.2 = true) seen →
  eachIn element childIndexMap recIn l newStyle newProps seen log
  = (Ok (st, props', rule'), log') →
  ∃ fields', rule' = RObj fields' ∧ Forall (λ kv, css_free kv.2 = true) fields'.
Proof.
  intros Hev Hl. revert newStyle newProps seen log.
  induction Hl as [|[property value] rest Hrec _ IH];
    intros newStyle newProps seen log Hseen Hrun.
  - apply mret_Ok_inv in Hrun as [[= <- <- <-] _]. eauto.
  - cbn [eachInPlace] in Hrun.
    destruct (decide (property = "css")); [by eapply IH|].
    assert (∀ value', css_free value' = true →
              Forall (λ kv, css_free kv.2 = true) (seen ++ [(property, value')])) as Hsnoc.
    { intros value' Hfree. apply Forall_app. split; [done|]. by constructor. }
    destruct value as [p|sub]; [eapply IH; [|exact Hrun]; by apply Hsnoc|].
    destruct (bool_decide (sub = [])) eqn:Hempty.
    { apply bool_decide_eq_true in Hempty as ->.
      eapply IH; [|exact Hrun]. by apply Hsnoc. }
    specialize (Hev element property newProps childIndexMap).
    destruct (evaluateExpression Component element property newProps childIndexMap)
      as [matched newProps1]. simpl in Hev. subst matched.
    apply bind_Ok_inv in Hrun as ([[resolved newProps2] value'] & log1 & Hvalue & Hrun).
    apply Hrec in Hvalue.
    destruct (isPseudoElement property).
    + apply bind_Ok_inv in Hrun as (pseudo & log2 & _ & Hrun).
      eapply IH; [|exact Hrun]. by apply Hsnoc.
    + eapply IH; [|exact Hrun]. by apply Hsnoc.
Qed.

Lemma resolveInPlace_css_free rule :
  (∀ element property newProps childIndexMap,
     (evaluateExpression Component element property newProps childIndexMap).1 = true) →
  ∀ element newProps childIndexMap log st props' rule' log',
    resolveInPlace element rule newProps childIndexMap log = (Ok (st, props', rule'), log') →
    css_free rule' = true.
Proof.
  intros Hev.
  induction rule as [p|fields IH] using rvalue_nested_ind;
    intros element newProps childIndexMap log st props' rule' log' Hrun.
  - apply mret_Ok_inv in Hrun as [[= <- <- <-] _]. done.
  - pose proof Hrun as Hkeys.
    apply resolveStyle_deletes_css_keys in Hkeys as (fields' & -> & Hcss).
    rewrite resolveInPlace_RObj in Hrun.
    eapply eachIn_css_free in Hrun as (fields'' & [= <-] & Hall); [|done| |done].
    + by apply css_free_RObj.
    + eapply Forall_impl; [exact IH|]. intros [k v] Hv. simpl. intros. by eapply Hv.
Qed.

(** On a rule without [css] entries the loop leaves the rule and the class
    name as they are, provided the evaluator leaves the class name alone. *)
Lemma eachIn_css_free_again element childIndexMap recIn l newStyle newProps seen log
    st props' rule' log' :
  (∀ element property newProps childIndexMap,
     className (evaluateExpression Component element property newProps childIndexMap).2
     = className newProps) →
  "css" ∉ l.*1 →
  Forall (λ kv, ∀ newProps log st props' rule' log',
            recIn kv.2 newProps log = (Ok (st, props', rule'), log') →
            rule' = kv.2 ∧ className props' = className newProps) l →
  eachIn element childIndexMap recIn l newStyle newProps seen log
  = (Ok (st, props', rule'), log') →
  rule' = RObj (seen ++ l) ∧ className props' = className newProps.
Proof.
  intros Hev Hcss Hl. revert newStyle newProps seen log Hcss.
  induction Hl as [|[property value] rest Hrec _ IH];
    intros newStyle newProps seen log Hcss Hrun.
  - apply mret_Ok_inv in Hrun as [[= <- <- <-] _]. by rewrite app_nil_r.
  - cbn [eachInPlace] in Hrun. rewrite fmap_cons in Hcss.
    apply not_elem_of_cons in Hcss as [Hne Hcss]. simpl in Hne.
    rewrite decide_False in Hrun by done.
    assert (∀ newStyle newProps1 log,
              className newProps1 = className newProps →
              eachIn element childIndexMap recIn rest newStyle newProps1
                (seen ++ [(property, value)]) log = (Ok (st, props', rule'), log') →
              rule' = RObj (seen ++ (property, value) :: rest) ∧
              className props' = className newProps) as Hstep.
    { intros newStyle' newProps1 log0 Hclass Hrest.
      apply IH in Hrest as [-> ->]; [|done]. by rewrite <- app_assoc. }
    destruct value as [p|sub]; [by eapply Hstep|].
    destruct (bool_decide (sub = [])); [by eapply Hstep|].
    specialize (Hev element property newProps childIndexMap).
    destruct (evaluateExpression Component element property newProps childIndexMap)
      as [[] newProps1]; simpl in Hev; [|by eapply Hstep].
    apply bind_Ok_inv in Hrun as ([[resolved newProps2] value'] & log1 & Hvalue & Hrun).
    apply Hrec in Hvalue as [-> Hclass]. simpl in Hclass.
    destruct (isPseudoElement property).
    + apply bind_Ok_inv in Hrun as (pseudo & log2 & _ & Hrun).
      eapply Hstep; [|exact Hrun]. congruence.
    + eapply Hstep; [|exact Hrun]. congruence.
Qed.

Lemma resolveInPlace_css_free_again rule :
  (∀ element property newProps childIndexMap,
     className (evaluateExpression Component element property newProps childIndexMap).2
     = className newProps) →
  css_free rule = true →
  ∀ element newProps childIndexMap log st props' rule' log',
    resolveInPlace element rule newProps childIndexMap log = (Ok (st, props', rule'), log') →
    rule' = rule ∧ className props' = className newProps.
Proof.
  intros Hev.
  induction rule as [p|fields IH] using rvalue_nested_ind;
    intros Hfree element newProps childIndexMap log st props' rule' log' Hrun.
  - apply mret_Ok_inv in Hrun as [[= <- <- <-] _]. done.
  - apply css_free_RObj in Hfree as [Hcss Hall].
    rewrite resolveInPlace_RObj in Hrun.
    assert (obj_get "css" fields = None) as Hnone by by apply obj_get_None_keys.
    rewrite Hnone in Hrun.
    eapply eachIn_css_free_again in Hrun; [exact Hrun|done|done|].
    apply Forall_forall. intros [k v] Hin. simpl. intros.
    eapply (proj1 (Forall_forall _ _) IH (k, v) Hin); [|done].
    apply (proj1 (Forall_forall _ _) Hall (k, v) Hin).
Qed.

(** X20: The class names of a rule are applied once: after one resolution under
    an evaluator that accepts every condition (and leaves the class name alone),
    the rule object has no [css] entry at any level, and resolving the same
    object again, for whatever element, adds nothing to the class name and
    leaves the object as it is. *)
Theorem css_class_names_are_applied_once
    element rule newProps childIndexMap log st props' rule' log' :
  (∀ element property newProps childIndexMap,
     (evaluateExpression Component element property newProps childIndexMap).1 = true) →
  (∀ element property newProps childIndexMap,
     className (evaluateExpression Component element property newProps childIndexMap).2
     = className newProps) →
  resolveInPlace element rule newProps childIndexMap log = (Ok (st, props', rule'), log') →
  css_free rule' = true ∧
  ∀ element2 newProps2 childIndexMap2 log2 st2 props2 rule2 log2',
    resolveInPlace element2 rule' newProps2 childIndexMap2 log2
    = (Ok (st2, props2, rule2), log2') →
    className props2 = className newProps2 ∧ rule2 = rule'.
Proof.
  intros Hmatch Hclass Hrun.
  pose proof (resolveInPlace_css_free rule Hmatch _ _ _ _ _ _ _ _ Hrun) as Hfree.
  split; [done|].
  intros element2 newProps2 childIndexMap2 log2 st2 props2 rule2 log2' Hrun2.
  by destruct (resolveInPlace_css_free_again rule' Hclass Hfree _ _ _ _ _ _ _ _ Hrun2).
Qed.
End in_place_facts.

(** ** The first resolver *)

Section first_resolver_facts.
Import FirstResolver.
Context {Container : Type}.
Context (State_has : Container → prim → bool).
Context (State_add : Container → prim → Container).
Context (addRequiredEventListeners : Container → node → prim → props_t → Container * props_t).
Context (cloneObject : selector → selector).
Context (evaluateExpression :
           string → Container → node → prim → option ChildIndex.t → bool).

Local Abbreviation resolveLook :=
  (FirstResolver.resolveLook State_has State_add addRequiredEventListeners cloneObject
     evaluateExpression).
Local Abbreviation resolveStyle := (FirstResolver.resolveStyle evaluateExpression).

(** X21: An element without children, or whose only child is [null] or a
    boolean, makes the first resolver fail with a TypeError before it touches
    the container or the console: the single-child branch reads
    [props.children.props]. *)
Theorem first_resolveLook_fails_on_a_childless_element
    container type key ref props selectors childProps (child : prim) log :
  children props = Prim child →
  (∀ n, child ≠ PNum n) →
  (∀ text, child ≠ PStr text) →
  ∃ msg, resolveLook container (Elem type key ref props) selectors childProps log
         = (Throw (TypeError msg), log).
Proof.
  intros Hch Hnum Hstr. cbn [FirstResolver.resolveLook]. rewrite Hch.
  destruct child as [| |b|n|text].
  - eexists. by apply bind_Throw.
  - eexists. by apply bind_Throw.
  - eexists. by apply bind_Throw.
  - by destruct (Hnum n).
  - by destruct (Hstr text).
Qed.

Lemma first_forEachChild_fails (rec : Container → node → ChildIndex.t → M (node * Container))
    oldChildren typeMap l index indexMap acc container log :
  Exists (λ child, is_element child = false) l →
  ∃ e log', forEachChild rec oldChildren typeMap l index indexMap acc container log
            = (Throw e, log').
Proof.
  revert index indexMap acc container log.
  induction l as [|child rest IH]; intros index indexMap acc container log Hl;
    [by apply Exists_nil in Hl|].
  cbn [forEachChild]. unfold mbind at 1, M_bind at 1.
  destruct (generateIndexMap acc indexMap log) as [[indexMap'|e] log1]; [|eauto].
  destruct child as [p|items|type key ref props].
  - destruct p; eauto.
  - eauto.
  - apply Exists_cons in Hl as [Hl|Hl]; [done|].
    destruct (truthy (default PUndef (look props))); [|by apply IH].
    unfold mbind at 1, M_bind at 1.
    destruct (getChildType (Elem type key ref props) log1) as [[t|e] log2]; [|eauto].
    unfold mbind at 1, M_bind at 1.
    destruct (typeMap !! Resolver.propertyKey t); [|eauto].
    unfold mret at 1, M_ret at 1. cbn beta iota.
    unfold mbind at 1, M_bind at 1.
    match goal with |- context [rec ?c ?ch ?cp log2] => destruct (rec c ch cp log2) as [[[r c']|e] log3] end;
      [|eauto].
    by apply IH.
Qed.

(** X22: An array of children in which anything is not an element (a text, a
    number, a boolean, [null], [undefined], a nested array) makes the first
    resolver fail: the loop reads [child.props.look] of every child. *)
Theorem first_resolveLook_fails_on_a_child_that_is_no_element
    container type key ref props selectors childProps items log :
  children props = Arr items →
  Exists (λ child, is_element child = false) items →
  ∃ e log', resolveLook container (Elem type key ref props) selectors childProps log
            = (Throw e, log').
Proof.
  intros Hch Hitems. cbn [FirstResolver.resolveLook]. rewrite Hch.
  unfold mbind at 1, M_bind at 1. unfold mbind at 1, M_bind at 1.
  destruct (generateTypeMap items log) as [[typeMap|e] log1]; [|eauto].
  unfold mbind at 1, M_bind at 1.
  destruct (first_forEachChild_fails
              (λ container child childProps,
                 resolveLook container child selectors (Some childProps))
              items typeMap items 0 ∅ [] container log1 Hitems) as (e & log' & ->).
  eauto.
Qed.

Lemma selector_nested_ind (P : selector → Prop) :
  (∀ style css, P (Selector style css None)) →
  (∀ style css conditions,
     Forall (λ kv, P kv.2) conditions → P (Selector style css (Some conditions))) →
  ∀ styles, P styles.
Proof.
  intros Hn Hc. fix IH 1. intros [style css [conditions|]]; [|apply Hn].
  apply Hc. induction conditions as [|[k v] conditions IHc]; constructor;
    [apply IH|exact IHc].
Qed.

Lemma resolveClassName_style css p : style (Resolver.resolveClassName css p) = style p.
Proof. unfold Resolver.resolveClassName. by destruct (truthy_rvalue (className p)). Qed.

Lemma first_css_keeps_style (css : option rvalue) p :
  style match css with
        | Some css =>
            if truthy_rvalue (Some css) then Resolver.resolveClassName css p else p
        | None => p
        end = style p.
Proof.
  destruct css as [[q|fields]|]; simpl; [destruct (truthy q)|..];
    try apply resolveClassName_style; done.
Qed.

(** [resolveStyle] changes nothing but the class name of the props. *)
Lemma first_resolveStyle_keeps_style styles :
  ∀ newProps container element key childProps log newStyle newProps' log',
    resolveStyle styles newProps container element key childProps log
    = (Ok (newStyle, newProps'), log') →
    style newProps' = style newProps.
Proof.
  induction styles as [style0 css|style0 css conditions IH] using selector_nested_ind;
    intros newProps container element key childProps log newStyle newProps' log' Hrun;
    cbn [FirstResolver.resolveStyle] in Hrun.
  - apply mret_Ok_inv in Hrun as [[= _ <-] _]. apply first_css_keeps_style.
  - revert Hrun. rewrite <- (first_css_keeps_style css newProps).
    generalize (match css with
                | Some css =>
                    if truthy_rvalue (Some css)
                    then Resolver.resolveClassName css newProps else newProps
                | None => newProps
                end).
    generalize style0 at 1. clear newProps. revert log.
    induction IH as [|[expr nested] rest Hnested _ IHrest];
      intros log style1 newProps Hrun.
    + by apply mret_Ok_inv in Hrun as [[= _ <-] _].
    + destruct (evaluateExpression expr container element key childProps);
        [|by apply IHrest in Hrun].
      apply bind_Ok_inv in Hrun as ([resolved newProps1] & log1 & Hn & Hrun).
      apply bind_Ok_inv in Hrun as (style2 & log2 & _ & Hrun).
      apply IHrest in Hrun. apply Hnested in Hn. simpl in Hn. congruence.
Qed.

(** X23: In the first resolver the explicit [style] prop wins on every property
    it sets, [before] and [after] included: it is assigned last and nothing
    follows. The listener set-up is taken to leave the style prop alone. *)
Theorem first_resolveLook_explicit_style_wins
    container type key ref props selectors childProps (explicit : styles_t)
    (property : string) (value : sval node) log resolved container' log' :
  (∀ container element key newProps,
     style (addRequiredEventListeners container element key newProps).2 = style newProps) →
  style props = Some explicit →
  NoDup explicit.*1 →
  obj_get property explicit = Some value →
  resolveLook container (Elem type key ref props) selectors childProps log
  = (Ok (resolved, container'), log') →
  obj_get property (finalStyle resolved) = Some value.
Proof.
  intros Hlisteners Hstyle Hnd Hget Hrun. cbn [FirstResolver.resolveLook] in Hrun.
  apply bind_Ok_inv in Hrun as ([children0 container0] & log0 & _ & Hrun).
  apply bind_Ok_inv in Hrun as ([[newStyle newProps] container1] & log1 & Hlook & Hrun).
  assert (style newProps = Some explicit) as Hkept.
  { destruct (look props) as [look_|]; [|by apply mret_Ok_inv in Hlook as [[= _ <- _] _]].
    destruct (obj_get (prim_to_string look_) selectors) as [styles|];
      [|by apply mret_Ok_inv in Hlook as [[= _ <- _] _]].
    apply bind_Ok_inv in Hlook as (container2 & log2 & _ & Hlook).
    specialize (Hlisteners container2 (Elem type key ref props)
                  (identityKey (Elem type key ref props)) props).
    destruct (addRequiredEventListeners container2 (Elem type key ref props)
                (identityKey (Elem type key ref props)) props) as [container3 newProps3].
    simpl in Hlisteners.
    apply bind_Ok_inv in Hlook as ([newStyle4 newProps4] & log4 & Hresolved & Hlook).
    apply first_resolveStyle_keeps_style in Hresolved.
    apply mret_Ok_inv in Hlook as [[= _ <- _] _]. simpl. congruence. }
  rewrite Hkept in Hrun.
  apply bind_Ok_inv in Hrun as (final & log2 & Hassign & Hrun).
  apply mret_Ok_inv in Hrun as [[= <- _] _].
  unfold assign_into in Hassign. destruct newStyle as [base|]; [|done].
  apply mret_Ok_inv in Hassign as [<- _]. simpl.
  by apply obj_get_assign_hit.
Qed.

(** X24: A selector without a [style] part cannot take a condition: as soon as
    one of its conditions holds, [resolveStyle] fails, since the nested style is
    assigned into [undefined]. *)
Theorem first_resolveStyle_needs_a_style_part
    css conditions newProps container element key childProps log :
  Exists (λ kv, evaluateExpression kv.1 container element key childProps = true) conditions →
  ∃ e log',
    resolveStyle (Selector None css (Some conditions)) newProps container element key
      childProps log
    = (Throw e, log').
Proof.
  intros Hex. cbn [FirstResolver.resolveStyle].
  generalize (match css with
              | Some css =>
                  if truthy_rvalue (Some css)
                  then Resolver.resolveClassName css newProps else newProps
              | None => newProps
              end).
  clear newProps. revert log.
  induction Hex as [[expr nested] rest Hhead|[expr nested] rest _ IH]; intros log newProps.
  - simpl in Hhead. rewrite Hhead. unfold mbind at 1, M_bind at 1.
    destruct (FirstResolver.resolveStyle _ nested newProps container element key childProps log)
      as [[[resolved newProps1]|e] log1]; eauto.
  - destruct (evaluateExpression expr container element key childProps); [|apply IH].
    unfold mbind at 1, M_bind at 1.
    destruct (FirstResolver.resolveStyle _ nested newProps container element key childProps log)
      as [[[resolved newProps1]|e] log1]; eauto.
Qed.

Lemma first_getChildType_inv child log t log' :
  getChildType child log = (Ok t, log') →
  log' = log ∧ Resolver.propertyKey t = firstKindOf child.
Proof.
  destruct child as [[]|items|[tag|name src] key ref props]; simpl; try done;
    try (by intros [= <- <-]).
  destruct (decide (src = "function")); [destruct name|]; by intros [= <- <-].
Qed.

Lemma first_generateIndexMap_inv l indexMap log indexMap' log' :
  generateIndexMap l indexMap log = (Ok indexMap', log') →
  log' = log ∧ indexMap' = foldl (λ m child, bump (firstKindOf child) m) indexMap l.
Proof.
  revert indexMap log. induction l as [|child l IH]; intros indexMap log Hrun.
  - by apply mret_Ok_inv in Hrun as [<- <-].
  - cbn [generateIndexMap] in Hrun.
    apply bind_Ok_inv in Hrun as (t & log1 & Ht & Hrun).
    apply first_getChildType_inv in Ht as [-> Hkey]. rewrite Hkey in Hrun.
    apply IH in Hrun as [-> ->]. split; [done|]. simpl. f_equal.
    unfold bump. by destruct (indexMap !! firstKindOf child).
Qed.

Lemma count_first_kind_cons kind child l :
  count_first_kind kind (child :: l)
  = (if decide (firstKindOf child = kind) then 1 else 0) + count_first_kind kind l.
Proof. unfold count_first_kind. rewrite filter_cons. by case_decide. Qed.

Lemma first_bumps_count kind l m :
  default 0 (foldl (λ m child, bump (firstKindOf child) m) m l !! kind)
  = default 0 (m !! kind) + count_first_kind kind l.
Proof.
  revert m. induction l as [|child l IH]; intros m; simpl.
  - unfold count_first_kind. simpl. lia.
  - rewrite IH, bump_lookup, count_first_kind_cons. lia.
Qed.

Lemma first_bumps_positive l m :
  (∀ kind, m !! kind ≠ Some 0) →
  ∀ kind, foldl (λ m child, bump (firstKindOf child) m) m l !! kind ≠ Some 0.
Proof.
  revert m. induction l as [|child l IH]; intros m Hm; [done|].
  simpl. apply IH. intros kind. unfold bump.
  destruct (decide (firstKindOf child = kind)) as [->|Hne].
  - by rewrite lookup_insert_eq.
  - by rewrite lookup_insert_ne.
Qed.

Lemma positive_or_undefined_lookup (m : gmap string nat) kind :
  m !! kind ≠ Some 0 → m !! kind = positive_or_undefined (default 0 (m !! kind)).
Proof.
  unfold positive_or_undefined. destruct (m !! kind) as [[|n]|]; simpl; done.
Qed.

Lemma default_positive_or_undefined n : default 0 (positive_or_undefined n) = n.
Proof. unfold positive_or_undefined. by destruct (decide (n = 0)) as [->|]. Qed.

Lemma counted_so_far_S kind children calls :
  counted_so_far kind children (S calls)
  = counted_so_far kind children calls + count_first_kind kind (take calls children).
Proof.
  unfold counted_so_far. rewrite seq_S, sum_list_with_app. simpl. lia.
Qed.

Lemma counted_so_far_app kind children more calls :
  calls ≤ S (length children) →
  counted_so_far kind (children ++ more) calls = counted_so_far kind children calls.
Proof.
  induction calls as [|calls IH]; intros Hle; [done|].
  rewrite !counted_so_far_S, IH by lia.
  by rewrite take_app_le by lia.
Qed.

(** The loop of the first resolver, record by record. *)
Lemma first_forEachChild_records
    (rec : Container → node → ChildIndex.t → M (node * Container))
    oldChildren typeMap l index indexMap acc container log results container' log' :
  index = length acc →
  (∀ kind, indexMap !! kind = positive_or_undefined (counted_so_far kind acc index)) →
  forEachChild rec oldChildren typeMap l index indexMap acc container log
  = (Ok (results, container'), log') →
  ∃ rs, results = acc ++ rs ∧ length rs = length l ∧
    ∀ i child, l !! i = Some child →
      ∃ type key ref props, child = Elem type key ref props ∧
        if truthy (default PUndef (look props)) then
          ∃ container1 log1 resolved container2 log2,
            rec container1 child
              {| ChildIndex.index := index + i;
                 ChildIndex.length := length oldChildren;
                 ChildIndex.typeIndex :=
                   positive_or_undefined
                     (counted_so_far (firstKindOf child) results (S (index + i)));
                 ChildIndex.typeIndexLength := None |} log1
            = (Ok (resolved, container2), log2) ∧
            rs !! i = Some resolved
        else rs !! i = Some child.
Proof.
  revert index indexMap acc container log.
  induction l as [|child rest IH]; intros index indexMap acc container log Hindex Hmap Hrun.
  - apply mret_Ok_inv in Hrun as [[= <- <-] _]. exists []. by rewrite app_nil_r.
  - cbn [forEachChild] in Hrun.
    apply bind_Ok_inv in Hrun as (indexMap1 & log1 & Hcount & Hrun).
    apply first_generateIndexMap_inv in Hcount as [-> ->].
    set (indexMap1 := foldl (λ m child, bump (firstKindOf child) m) indexMap acc) in *.
    assert (∀ kind, indexMap1 !! kind
                    = positive_or_undefined (counted_so_far kind acc (S index))) as Hmap1.
    { intros kind. subst indexMap1.
      rewrite positive_or_undefined_lookup.
      - rewrite first_bumps_count, Hmap, default_positive_or_undefined.
        rewrite counted_so_far_S. subst index. by rewrite firstn_all.
      - apply first_bumps_positive. intros kind'. rewrite Hmap.
        unfold positive_or_undefined.
        destruct (decide (counted_so_far kind' acc index = 0)) as [|Hne]; [done|].
        intros [= Hzero]. by destruct Hne. }
    clearbody indexMap1.
    assert (∀ item indexMap2 container2 log2,
              (∀ kind, indexMap2 !! kind = indexMap1 !! kind) →
              forEachChild rec oldChildren typeMap rest (S index) indexMap2 (acc ++ [item])
                container2 log2 = (Ok (results, container'), log') →
              ∃ rs, results = acc ++ item :: rs ∧ length rs = length rest ∧
                ∀ i child, rest !! i = Some child →
                  ∃ type key ref props, child = Elem type key ref props ∧
                    if truthy (default PUndef (look props)) then
                      ∃ container1 log1 resolved container2 log2,
                        rec container1 child
                          {| ChildIndex.index := S index + i;
                             ChildIndex.length := length oldChildren;
                             ChildIndex.typeIndex :=
                               positive_or_undefined
                                 (counted_so_far (firstKindOf child) results
                                    (S (S index + i)));
                             ChildIndex.typeIndexLength := None |} log1
                        = (Ok (resolved, container2), log2) ∧
                        rs !! i = Some resolved
                    else rs !! i = Some child) as Hrest.
    { intros item indexMap2 container2 log2 Hsame Hrest.
      apply IH in Hrest as (rs & -> & Hlen & Hrs).
      - exists rs. rewrite <- app_assoc in Hrs |- *. done.
      - rewrite length_app. simpl. lia.
      - intros kind. rewrite Hsame, Hmap1.
        rewrite counted_so_far_app; [done|lia]. }
    destruct child as [[]|items|type key ref props]; try done.
    destruct (truthy (default PUndef (look props))) eqn:Hlook.
    + apply bind_Ok_inv in Hrun as (t & log2 & Ht & Hrun).
      apply first_getChildType_inv in Ht as [-> Hkey].
      apply bind_Ok_inv in Hrun as (typeIndexLength & log3 & Hlen & Hrun).
      destruct (typeMap !! Resolver.propertyKey t); [|done].
      apply mret_Ok_inv in Hlen as [<- <-].
      apply bind_Ok_inv in Hrun as ([resolved container2] & log4 & Hrec & Hrun).
      apply Hrest in Hrun as (rs & -> & Hlen & Hrs); [|done].
      exists (resolved :: rs). split; [done|]. split; [simpl; lia|].
      intros [|i] child Hi; simpl in Hi.
      * injection Hi as <-. exists type, key, ref, props. split; [done|]. rewrite Hlook.
        exists container, log, resolved, container2, log4. split; [|done].
        rewrite <- Hrec, Hkey, Hmap1, Nat.add_0_r.
        change (acc ++ resolved :: rs) with (acc ++ [resolved] ++ rs).
        rewrite (counted_so_far_app _ acc); [done|lia].
      * destruct (Hrs i child Hi) as (type' & key' & ref' & props' & -> & Hchild).
        exists type', key', ref', props'. split; [done|].
        destruct (truthy (default PUndef (look props'))); [|done].
        destruct Hchild as (c1 & l1 & r1 & c2 & l2 & Hcall & Hat).
        exists c1, l1, r1, c2, l2. split; [|done].
        by replace (index + S i) with (S index + i) by lia.
    + apply Hrest in Hrun as (rs & -> & Hlen & Hrs); [|done].
      exists (Elem type key ref props :: rs). split; [done|]. split; [simpl; lia|].
      intros [|i] child Hi; simpl in Hi.
      * injection Hi as <-. exists type, key, ref, props. split; [done|]. by rewrite Hlook.
      * destruct (Hrs i child Hi) as (type' & key' & ref' & props' & -> & Hchild).
        exists type', key', ref', props'. split; [done|].
        destruct (truthy (default PUndef (look props'))); [|done].
        destruct Hchild as (c1 & l1 & r1 & c2 & l2 & Hcall & Hat).
        exists c1, l1, r1, c2, l2. split; [|done].
        by replace (index + S i) with (S index + i) by lia.
Qed.

(** X25: When the first resolver's pass over an array of children completes,
    every child is an element and the new children come one per child in the
    same order: a child without a truthy [look] is passed through, and a child
    with one is replaced by the recursive resolution with a record whose [index]
    is the 0-based position, whose [length] is the number of siblings, whose
    [typeIndexLength] is [undefined] and whose [typeIndex] is the running total
    that the repeated counting of the children resolved so far leaves for the
    child's kind ([undefined] while it is 0). *)
Theorem first_children_records
    (rec : Container → node → ChildIndex.t → M (node * Container))
    items typeMap container log results container' log' :
  forEachChild rec items typeMap items 0 ∅ [] container log
  = (Ok (results, container'), log') →
  length results = length items ∧
  ∀ i child, items !! i = Some child →
    ∃ type key ref props, child = Elem type key ref props ∧
      if truthy (default PUndef (look props)) then
        ∃ container1 log1 resolved container2 log2,
          rec container1 child
            {| ChildIndex.index := i;
               ChildIndex.length := length items;
               ChildIndex.typeIndex :=
                 positive_or_undefined (counted_so_far (firstKindOf child) results (S i));
               ChildIndex.typeIndexLength := None |} log1
          = (Ok (resolved, container2), log2) ∧
          results !! i = Some resolved
      else results !! i = Some child.
Proof.
  intros Hrun.
  apply first_forEachChild_records in Hrun as (rs & -> & Hlen & Hrs); [|done|done].
  split; [done|]. exact Hrs.
Qed.
End first_resolver_facts.

(** ** Instances *)

Lemma resolveStyle_plain_property_written_last_wins_witness :
  Resolver.resolveStyle alwaysMatches isPseudoElement_byName Sample.plainOwner
    (Sample.leaf "div") (RObj ([(":hover", RObj Cases.green)] ++ [("color", RPrim (PStr "red"))]))
    emptyProps None []
  = (Ok (Hello.red, emptyProps), []) ∧
  obj_get "color" Hello.red = Some (SPrim (PStr "red")).
Proof.
  split; [by vm_compute|].
  apply (resolveStyle_plain_property_written_last_wins
           alwaysMatches isPseudoElement_byName Sample.plainOwner
           (Sample.leaf "div") [(":hover", RObj Cases.green)] "color" (PStr "red")
           emptyProps None [] Hello.red emptyProps []).
  - discriminate.
  - by vm_compute.
Defined.


Lemma resolveStyle_pseudo_element_fills_a_slot_witness :
  ∃ st0 props0 log0 nested props1 log1 pseudo,
    Resolver.resolveStyle alwaysMatches isPseudoElement_byName Sample.plainOwner
      (Sample.leaf "div") (RObj Cases.redRule) emptyProps None []
    = (Ok (st0, props0), log0) ∧
    Resolver.resolveStyle alwaysMatches isPseudoElement_byName Sample.plainOwner
      (Sample.leaf "div") (RObj Cases.arrow) props1 None log0
    = (Ok (nested, emptyProps), log1) ∧
    Resolver.addPseudoElement nested log1 = (Ok pseudo, []) ∧
    obj_get "after" Cases.redWithArrow
    = Some (SNode pseudo) ∧
    ∀ property, property ≠ "after" →
      obj_get property Cases.redWithArrow
      = obj_get property st0.
Proof.
  apply (resolveStyle_pseudo_element_fills_a_slot
           alwaysMatches isPseudoElement_byName Sample.plainOwner
           (Sample.leaf "div") Cases.redRule ":after" Cases.arrow
           emptyProps None []
           Cases.redWithArrow
           emptyProps []).
  - discriminate.
  - discriminate.
  - reflexivity.
  - intros props. reflexivity.
  - by vm_compute.
Defined.


Lemma resolveLook_fails_on_a_look_that_is_no_string_witness :
  ∃ e log',
    Resolver.resolveLook alwaysMatches isPseudoElement_byName Sample.plainOwner
      (Elem (TTag "div") PNull PNull Cases.numbered) None []
    = (Throw e, log').
Proof.
  apply (resolveLook_fails_on_a_look_that_is_no_string
           alwaysMatches isPseudoElement_byName Sample.plainOwner
           (TTag "div") PNull PNull Cases.numbered (PNum 3) None []).
  - reflexivity.
  - discriminate.
  - intros name. discriminate.
Defined.

Lemma resolveLook_keeps_identity_and_sets_style_witness :
  ∃ resolved,
    Resolver.resolveLook alwaysMatches isPseudoElement_byName Sample.boxOwner Sample.box None []
      = (Ok resolved, []) ∧
    ∃ props', resolved = Elem (TTag "div") PNull PNull props' ∧ is_Some (style props').
Proof.
  eexists. split; [by vm_compute|].
  apply (resolveLook_keeps_identity_and_sets_style
           alwaysMatches isPseudoElement_byName Sample.boxOwner
           (TTag "div") PNull PNull Sample.boxProps None [] _ []).
  by vm_compute.
Defined.

(** [<span>{0}</span>] loses its 0. *)
Lemma resolveLook_drops_a_falsy_only_child_witness :
  ∃ resolved,
    Resolver.resolveLook alwaysMatches isPseudoElement_byName Sample.plainOwner
      (Elem (TTag "span") PNull PNull Cases.zero) None []
      = (Ok resolved, []) ∧
    ∃ items, childrenOf resolved = Arr items ∧
             length items ≤ 1 ∧ Forall (λ item, truthy_node item = true) items.
Proof.
  eexists. split; [by vm_compute|].
  apply (resolveLook_drops_a_falsy_only_child
           alwaysMatches isPseudoElement_byName Sample.plainOwner
           (TTag "span") PNull PNull Cases.zero (PNum 0) None [] _ []).
  - reflexivity.
  - reflexivity.
  - by vm_compute.
Defined.


Lemma createPseudoImage_source_witness :
  Resolver.createPseudoImage ("" +:+ "url(" +:+ "star.png" +:+ ")") []
  = (Ok (Elem (TTag "img") PNull PNull
           (mkProps None None None [("src", AVal (PStr "star.png"))] (Prim PUndef))),
     []).
Proof.
  apply (createPseudoImage_source "" "star.png" []).
  - reflexivity.
  - reflexivity.
Defined.

Lemma resolveClassName_joins_with_spaces_witness :
  className
    (foldl (λ props name, Resolver.resolveClassName (RPrim (PStr name)) props)
       emptyProps ["btn"; "btn-primary"])
  = Some (RPrim (PStr (JsString.join " " ["btn"; "btn-primary"]))).
Proof.
  apply (resolveClassName_joins_with_spaces ["btn"; "btn-primary"] emptyProps).
  - reflexivity.
  - discriminate.
  - repeat constructor; discriminate.
Defined.

Lemma resolveChildren_keeps_positions_witness :
  ∃ results,
    Resolver.resolveChildren
      (λ child childIndex,
         Resolver.resolveLook alwaysMatches isPseudoElement_byName Sample.plainOwner
           child (Some childIndex))
      id Sample.itemEmptyItem []
    = (Ok results, []) ∧
    length results = length Sample.itemEmptyItem ∧
    results !! 1 = Some (Prim (PStr "")).
Proof.
  eexists. split; [by vm_compute|].
  destruct (resolveChildren_keeps_positions
              (λ child childIndex,
                 Resolver.resolveLook alwaysMatches isPseudoElement_byName Sample.plainOwner
                   child (Some childIndex))
              id Sample.itemEmptyItem [] [] _ ltac:(by vm_compute))
    as (Hlen & _ & metas & _ & Hat).
  split; [exact Hlen|].
  exact (proj2 (Hat 1 (Prim (PStr "")) eq_refl)).
Defined.

Lemma positionalMetadata_in_range_witness :
  1 ≤ 3 ≤ 4 ∧
  ∃ typeIndex typeIndexLength,
    Some 2 = Some typeIndex ∧ Some 2 = Some typeIndexLength ∧
    1 ≤ typeIndex ≤ typeIndexLength.
Proof.
  apply (positionalMetadata_in_range Sample.xyxz [] [] Sample.xyxzRecords 2
           (ChildIndex.mk 3 4 (Some 2) (Some 2))).
  - by vm_compute.
  - reflexivity.
Defined.

Lemma substr_wraps_every_reported_match_witness :
  ∃ items,
    Substr.substr id Cases.emptyMatches "x*" Hello.red PUndef
      (set_children (Prim (PStr "ab")) emptyProps) []
    = (Ok (None, set_children (Arr items) (set_children (Prim (PStr "ab")) emptyProps)), []) ∧
    length items = 2 * 3 + 1 ∧
    (∀ i match_, ["" ; ""; ""] !! i = Some match_ →
       items !! (2 * i + 1) = Some (wrapper Hello.red match_)) ∧
    (∀ i, i ≤ 3 → ∃ p, items !! (2 * i) = Some (Prim p)).
Proof.
  apply (substr_wraps_every_reported_match id Cases.emptyMatches
           "x*" Hello.red PUndef (set_children (Prim (PStr "ab")) emptyProps)
           "ab" [""; ""; ""] []).
  - reflexivity.
  - reflexivity.
Defined.

Lemma active_press_then_release_witness :
  BrowserState.newProps (BrowserState.active ":active" Hello.red PUndef Pressed.fresh).2
    !! "onMouseDown"
  = Some (BrowserState.MouseDown (PStr "a")).
Proof.
  apply (active_press_then_release ":active" Hello.red PUndef Pressed.fresh).
  - apply emptyOwner_wf.
  - reflexivity.
Defined.

Lemma hover_state_is_shared_by_identity_key_witness :
  ∃ enter entered,
    BrowserState.newProps (BrowserState.hover ":hover" Hello.red PUndef Pressed.fresh).2
      !! "onMouseEnter" = Some enter ∧
    BrowserState.invoke enter
      (BrowserState.Component (BrowserState.hover ":hover" Hello.red PUndef Pressed.fresh).2)
    = Some (Ok entered) ∧
    ∀ element' property' styles' customKey' newProps',
      (BrowserState.hover property' styles' customKey'
         (BrowserState.mkContext element' entered newProps' None)).1
      = if decide (identityKey element' = PStr "a") then Some styles'
        else (BrowserState.hover property' styles' customKey'
                (BrowserState.mkContext element' BrowserState.emptyOwner newProps' None)).1.
Proof.
  apply (hover_state_is_shared_by_identity_key ":hover" Hello.red PUndef Pressed.fresh).
  apply emptyOwner_wf.
Defined.

Lemma focus_registers_listeners_witness :
  BrowserState.newProps (BrowserState.focus ":focus" Hello.red PUndef Pressed.fresh).2
    !! "onFocus"
  = Some (BrowserState.SetState "focus" true (PStr "a")) ∧
  BrowserState.newProps (BrowserState.focus ":focus" Hello.red PUndef Pressed.fresh).2
    !! "onBlur"
  = Some (BrowserState.SetState "focus" false (PStr "a")).
Proof.
  destruct (focus_registers_listeners_and_ignores_other_states
              ":focus" Hello.red PUndef Pressed.fresh emptyOwner_wf)
    as (HonFocus & HonBlur & _).
  split; [exact HonFocus|exact HonBlur].
Defined.

Lemma resolveStyle_deletes_css_from_the_rule_witness :
  Resolver.resolveStyle alwaysMatches isPseudoElement_byName Sample.plainOwner
    (Sample.leaf "button") (RObj Cases.buttonFields) emptyProps None []
  = (Ok (Hello.red, Cases.classed), []) ∧
  ∃ fields',
    Cases.buttonRuleAfter = RObj fields' ∧
    fields'.*1 = (obj_delete "css" Cases.buttonFields).*1 ∧
    obj_get "css" fields' = None.
Proof.
  apply (resolveStyle_deletes_css_from_the_rule
           alwaysMatches isPseudoElement_byName Sample.plainOwner
           (Sample.leaf "button") Cases.buttonFields emptyProps None []
           Hello.red Cases.classed Cases.buttonRuleAfter []).
  by vm_compute.
Defined.

(** The second element resolved with the button rule gets no class name. *)
Lemma css_class_names_are_applied_once_witness :
  css_free Cases.buttonRuleAfter = true ∧
  ∀ element2 newProps2 childIndexMap2 log2 st2 props2 rule2 log2',
    InPlace.resolveStyle alwaysMatches isPseudoElement_byName Sample.plainOwner
      element2 Cases.buttonRuleAfter newProps2 childIndexMap2 log2
    = (Ok (st2, props2, rule2), log2') →
    className props2 = className newProps2 ∧ rule2 = Cases.buttonRuleAfter.
Proof.
  apply (css_class_names_are_applied_once
           alwaysMatches isPseudoElement_byName Sample.plainOwner
           (Sample.leaf "button") Cases.buttonRule emptyProps None []
           Hello.red Cases.classed Cases.buttonRuleAfter []).
  - intros. reflexivity.
  - intros. reflexivity.
  - by vm_compute.
Defined.

Lemma first_resolveLook_fails_on_a_childless_element_witness :
  ∃ msg,
    FirstResolver.resolveLook Cases.noState Cases.addState Cases.noListeners
      Cases.sameSelector Cases.alwaysHolds () Cases.image [] None []
    = (Throw (TypeError msg), []).
Proof.
  apply (first_resolveLook_fails_on_a_childless_element
           Cases.noState Cases.addState Cases.noListeners Cases.sameSelector
           Cases.alwaysHolds () (TTag "img") PNull PNull emptyProps [] None PUndef []).
  - reflexivity.
  - intros n. discriminate.
  - intros text. discriminate.
Defined.

Lemma first_resolveLook_fails_on_a_child_that_is_no_element_witness :
  ∃ e log',
    FirstResolver.resolveLook Cases.noState Cases.addState Cases.noListeners
      Cases.sameSelector Cases.alwaysHolds ()
      (Elem (TTag "p") PNull PNull Cases.paragraph) [] None []
    = (Throw e, log').
Proof.
  apply (first_resolveLook_fails_on_a_child_that_is_no_element
           Cases.noState Cases.addState Cases.noListeners Cases.sameSelector
           Cases.alwaysHolds () (TTag "p") PNull PNull Cases.paragraph [] None
           [Prim (PStr "text")] []).
  - reflexivity.
  - apply Exists_cons_hd. reflexivity.
Defined.

(** The explicit [before] stays in the style map of the first resolver. *)
Lemma first_resolveLook_explicit_style_wins_witness :
  ∃ resolved,
    FirstResolver.resolveLook Cases.noState Cases.addState Cases.noListeners
      Cases.sameSelector Cases.alwaysHolds ()
      (Elem (TTag "div") PNull PNull Cases.marked) Cases.markSelectors None []
    = (Ok (resolved, ()), []) ∧
    obj_get "before" (finalStyle resolved) = Some (SPrim (PStr "y")).
Proof.
  eexists. split; [by vm_compute|].
  apply (first_resolveLook_explicit_style_wins
           Cases.noState Cases.addState Cases.noListeners Cases.sameSelector
           Cases.alwaysHolds () (TTag "div") PNull PNull Cases.marked Cases.markSelectors None
           [("before", SPrim (PStr "y"))] "before" (SPrim (PStr "y")) [] _ () []).
  - intros. reflexivity.
  - reflexivity.
  - apply NoDup_singleton.
  - reflexivity.
  - by vm_compute.
Defined.

Lemma first_resolveStyle_needs_a_style_part_witness :
  ∃ e log',
    FirstResolver.resolveStyle Cases.alwaysHolds
      (FirstResolver.Selector None None (Some Cases.hoverOnly)) emptyProps ()
      Cases.image (PStr "root") None []
    = (Throw e, log').
Proof.
  apply (first_resolveStyle_needs_a_style_part
           Cases.alwaysHolds None Cases.hoverOnly emptyProps () Cases.image (PStr "root")
           None []).
  apply Exists_cons_hd. reflexivity.
Defined.

(** Four items of one kind get the type indexes undefined, 1, 3 and 6. *)
Lemma first_children_records_witness :
  ∃ results,
    FirstResolver.forEachChild
      (λ container child childProps,
         FirstResolver.resolveLook Cases.noState Cases.addState Cases.noListeners
           Cases.sameSelector Cases.alwaysHolds container child [] (Some childProps))
      Cases.fourItems {[ "li" := 4 ]} Cases.fourItems 0 ∅ [] () []
    = (Ok (results, ()), []) ∧
    length results = length Cases.fourItems ∧
    (λ i, positive_or_undefined (counted_so_far "li" results (S i))) <$> [0; 1; 2; 3]
    = [None; Some 1; Some 3; Some 6].
Proof.
  eexists. split; [by vm_compute|]. split; [|by vm_compute].
  apply (first_children_records
           (λ container child childProps,
              FirstResolver.resolveLook Cases.noState Cases.addState Cases.noListeners
                Cases.sameSelector Cases.alwaysHolds container child [] (Some childProps))
           Cases.fourItems {[ "li" := 4 ]} () [] _ () []).
  by vm_compute.
Defined.

Lemma resolveLook_keeps_the_children_in_order_witness :
  ∃ resolved,
    Resolver.resolveLook alwaysMatches isPseudoElement_byName Sample.plainOwner
      (Elem (TTag "ul") PNull PNull Cases.sparseProps) None []
    = (Ok resolved, []) ∧
    ∃ resolvedItems,
      length resolvedItems = length Cases.sparse ∧
      (∀ i child, Cases.sparse !! i = Some child → truthy_node child = false →
         resolvedItems !! i = Some child) ∧
      (childrenOf resolved = Arr resolvedItems ∨
       (∃ pseudo, childrenOf resolved = Arr (pseudo :: resolvedItems)) ∨
       (∃ pseudo, childrenOf resolved = Arr (resolvedItems ++ [pseudo]))).
Proof.
  eexists. split; [by vm_compute|].
  apply (resolveLook_keeps_the_children_in_order
           alwaysMatches isPseudoElement_byName Sample.plainOwner
           (TTag "ul") PNull PNull Cases.sparseProps Cases.sparse None [] _ []).
  - reflexivity.
  - by vm_compute.
Defined.
